(** * SenseiLua: the heuristic Lua analyzer of [sensei_lua/analyzer.py]

    A shallow embedding of the analysis engine (final-newline check,
    indentation classifier, trailing-whitespace check, comment/string
    stripper, word tokenizer, block-balance checker) together with the
    properties its specification states about it.

    Python values are modelled as follows.
    - A [str] is a list of Unicode code points ([list char], [char := N]).
    - An [int] is a [Z]; [len] of a string is [Z.of_nat (length _)].
    - [Issue] is a record; its [code] field only ever holds one of four
      literals and is an enumeration here.
    - The dictionary [_BLOCK_PAIRS] is a [gmap], the set [_BLOCK_ENDINGS]
      a [gset].
    - A generator is the list of the values it yields, in order; a
      generator that can raise is an [outcome].
    - [str.isalpha] is a table of the Unicode database: it is a parameter
      of the development ([isalpha]), constrained only where a statement
      needs a fact about a particular code point. *)

From Stdlib Require Import ZArith Ascii String.
From stdpp Require Import base tactics option list sorting gmap pretty.

Local Open Scope Z_scope.

(** ** Python strings *)

Definition char := N.
Abbreviation pystr := (list char).

(** A Python string literal of ASCII characters. *)
Definition lit (s : string) : pystr :=
  (λ a, N_of_ascii a) <$> list_ascii_of_string s.
Global Arguments lit : simpl never.

Definition LF : char := 10%N.
Definition CR : char := 13%N.
Definition TAB : char := 9%N.
Definition SPACE : char := 32%N.
Definition DQUOTE : char := 34%N.
Definition SQUOTE : char := 39%N.
Definition DASH : char := 45%N.
Definition BACKSLASH : char := 92%N.
Definition UNDERSCORE : char := 95%N.

(** [len(s)] *)
Definition len {A} (s : list A) : Z := Z.of_nat (length s).

(** [f"{n}"] for an [int].  CPython refuses to convert an integer of more
    than 4300 decimal digits, the default of [sys.set_int_max_str_digits],
    and raises [ValueError]; [str_of_int] is the conversion of the integers
    within that limit, which [str_digits_ok] singles out. *)
Definition str_of_int (n : Z) : pystr := lit (pretty n).
Global Arguments str_of_int : simpl never.

Definition int_max_str_digits : Z := 4300.

Definition str_digits_ok (n : Z) : Prop := Z.abs n < 10 ^ int_max_str_digits.

(** The line boundaries of [str.splitlines]: LF, CR, VT, FF, FS, GS, RS,
    NEL, LS and PS; CR immediately followed by LF is one boundary. *)
Definition is_linebreak (c : char) : bool :=
  bool_decide (c ∈ [10; 13; 11; 12; 28; 29; 30; 133; 8232; 8233]%N).

(** [str.splitlines()] as CPython scans it: [cur] is the line being
    collected.  A line is closed at each boundary; characters after the last
    boundary form a last line only when there are any. *)
Fixpoint splitlines_go (s cur : pystr) : list pystr :=
  match s with
  | [] => match cur with [] => [] | _ => [cur] end
  | c :: rest =>
      if is_linebreak c then
        cur :: match rest with
               | c' :: rest' =>
                   if bool_decide (c = CR) && bool_decide (c' = LF)
                   then splitlines_go rest' []
                   else splitlines_go rest []
               | [] => []
               end
      else splitlines_go rest (cur ++ [c])
  end.

Definition splitlines (s : pystr) : list pystr := splitlines_go s [].

(** [s.endswith(c)] for a one-character [c] *)
Definition endswith (s : pystr) (c : char) : bool :=
  bool_decide (last s = Some c).

(** [s.lstrip(chars)] and [s.rstrip(chars)] *)
Fixpoint lstrip (chars s : pystr) : pystr :=
  match s with
  | [] => []
  | c :: rest => if bool_decide (c ∈ chars) then lstrip chars rest else s
  end.

Definition rstrip (chars s : pystr) : pystr :=
  reverse (lstrip chars (reverse s)).

(** [s.startswith(t)] *)
Fixpoint startswith (s t : pystr) {struct t} : bool :=
  match t, s with
  | [], _ => true
  | _ :: _, [] => false
  | b :: t', a :: s' => bool_decide (a = b) && startswith s' t'
  end.

(** [s.find(t)]: the lowest index where [t] occurs in [s], or -1 *)
Fixpoint find_from (i : Z) (s t : pystr) : Z :=
  if startswith s t then i
  else match s with
       | [] => -1
       | _ :: s' => find_from (i + 1) s' t
       end.

Definition find (s t : pystr) : Z := find_from 0 s t.

(** [s.index(c)] for a one-character [c]; [None] stands for [ValueError] *)
Fixpoint index (c : char) (s : pystr) : option Z :=
  match s with
  | [] => None
  | a :: s' => if bool_decide (a = c) then Some 0 else Z.succ <$> index c s'
  end.

(** [s.replace(c, "")] for a one-character [c] *)
Definition remove_char (c : char) (s : pystr) : pystr :=
  filter (λ a, a ≠ c) s.

(** [enumerate(xs, start)] *)
Fixpoint enumerate {A} (start : Z) (xs : list A) : list (Z * A) :=
  match xs with
  | [] => []
  | x :: xs' => (start, x) :: enumerate (start + 1) xs'
  end.

(** ** Exceptions *)

Inductive exn := ZeroDivisionError | ValueError.

Inductive outcome (A : Type) :=
  | Returns (a : A)
  | Raises (e : exn).
Arguments Returns {A} a.
Arguments Raises {A} e.

Definition obind {A B} (m : outcome A) (k : A → outcome B) : outcome B :=
  match m with
  | Returns a => k a
  | Raises e => Raises e
  end.

Notation "x ←! m ; k" := (obind m (λ x, k))
  (at level 20, m at level 100, k at level 200, right associativity,
   format "x  ←!  m ;  '/' k").

(** ** The issue model *)

Inductive IssueCode := GENERIC | FORMAT | INDENT | SYNTAX.

Record Issue := mkIssue {
  line : Z;
  column : Z;
  message : pystr;
  code : IssueCode;
}.

Global Instance IssueCode_eq_dec : EqDecision IssueCode.
Proof. solve_decision. Defined.

Global Instance Issue_eq_dec : EqDecision Issue.
Proof. solve_decision. Defined.

(** An issue without its column. *)
Definition without_column (i : Issue) : Z * pystr * IssueCode :=
  (line i, message i, code i).

(** ** Keyword tables *)

Definition _BLOCK_PAIRS : gmap pystr pystr :=
  {[ lit "function" := lit "end";
     lit "do" := lit "end";
     lit "then" := lit "end";
     lit "repeat" := lit "until" ]}.

Definition _BLOCK_ENDINGS : gset pystr := {[ lit "end"; lit "until" ]}.

(** [_find_column] *)
Definition _find_column (line token : pystr) : Z :=
  let idx := find line token in
  if bool_decide (idx >= 0) then idx + 1 else 1.

(** ** Indentation classifier *)

(** The body of the loop of [_check_indentation] for one enumerated line:
    the issues it yields before it reaches the next iteration. *)
Definition indentation_body (prefer_spaces : bool) (indent_size : Z)
    (idx : Z) (line : pystr) : outcome (list Issue) :=
  let stripped := lstrip [SPACE; TAB] line in
  let indent := take (length line - length stripped)%nat line in
  if bool_decide (stripped = []) then Returns []
  else if bool_decide (SPACE ∈ indent) && bool_decide (TAB ∈ indent) then
    Returns [mkIssue idx 1 (lit "Mixed tabs and spaces in indentation") INDENT]
  else
    yielded ←! (if prefer_spaces && bool_decide (TAB ∈ indent) then
                  match index TAB indent with
                  | Some k =>
                      let first_tab := k + 1 in
                      Returns [mkIssue idx first_tab
                                 (lit "Tab indentation found (expected spaces)") INDENT]
                  | None => Raises ValueError
                  end
                else Returns []);
    if bool_decide (indent ≠ []) && bool_decide (remove_char SPACE indent = indent)
    then Returns yielded
    else if bool_decide (indent ≠ [])
            && bool_decide (list_to_set indent =@{gset char} {[ SPACE ]})
    then
      if bool_decide (indent_size = 0) then Raises ZeroDivisionError
      else if bool_decide (len indent `mod` indent_size ≠ 0) then
        Returns (yielded ++
                 [mkIssue idx (len indent)
                    (lit "Indentation width should be a multiple of "
                     ++ str_of_int indent_size) INDENT])
      else Returns yielded
    else Returns yielded.

(** Running a raising loop body over the items of a [for] loop. *)
Fixpoint for_yield {A} (body : A → outcome (list Issue)) (items : list A)
    : outcome (list Issue) :=
  match items with
  | [] => Returns []
  | x :: items' =>
      ys ←! body x;
      rest ←! for_yield body items';
      Returns (ys ++ rest)
  end.

Definition _check_indentation (lines : list pystr) (prefer_spaces : bool)
    (indent_size : Z) : outcome (list Issue) :=
  for_yield (λ '(idx, line), indentation_body prefer_spaces indent_size idx line)
            (enumerate 1 lines).

(** ** Trailing whitespace *)

Definition trailing_body (idx : Z) (line : pystr) : list Issue :=
  if bool_decide (rstrip [SPACE; TAB] line ≠ line)
  then [mkIssue idx (len line) (lit "Trailing whitespace") FORMAT]
  else [].

Definition _check_trailing_whitespace (lines : list pystr) : list Issue :=
  '(idx, line) ← enumerate 1 lines; trailing_body idx line.

(** ** Comment/string stripper *)

(** The [while] loop of [_strip_comments] over the loop variables [i],
    [in_string] and [result].  [line !! (i + 1)] is [None] exactly when the
    source takes [nxt] to be the empty string.  The index grows at every
    iteration, so [fuel] only has to cover the length of the line; [None]
    is returned when it does not. *)
Fixpoint strip_loop (fuel : nat) (line : pystr) (i : nat)
    (in_string : option char) (result : pystr) : option pystr :=
  match line !! i with
  | None => Some result
  | Some ch =>
      match fuel with
      | O => None
      | S fuel =>
          let nxt := line !! (i + 1)%nat in
          match in_string with
          | None =>
              if bool_decide (ch = DASH) && bool_decide (nxt = Some DASH)
              then Some result
              else if bool_decide (ch ∈ [DQUOTE; SQUOTE])
              then strip_loop fuel line (i + 1) (Some ch) (result ++ [SPACE])
              else strip_loop fuel line (i + 1) None (result ++ [ch])
          | Some quote =>
              if bool_decide (ch = BACKSLASH)
              then strip_loop fuel line (i + 1 + 1) (Some quote) (result ++ [SPACE])
              else if bool_decide (ch = quote)
              then strip_loop fuel line (i + 1) None (result ++ [SPACE])
              else strip_loop fuel line (i + 1) (Some quote) (result ++ [SPACE])
          end
      end
  end.

Definition _strip_comments (line : pystr) : pystr :=
  default [] (strip_loop (length line) line 0 None []).

(** ** The lexical structure of a line

    The two-state automaton of the design notes, NORMAL and
    IN_STRING(quote), with a third state for the character after a
    backslash.  It marks every scanned character: kept as code, blanked as
    part of a string, or escaped; it stops at a comment marker. *)

Inductive mode := Normal | InStr (quote : char) | Esc (quote : char).

Inductive mark := Keep (c : char) | Blank | Escaped.

Fixpoint lex (m : mode) (s : pystr) : list mark :=
  match s with
  | [] => []
  | ch :: rest =>
      match m with
      | Normal =>
          if bool_decide (ch = DASH) && bool_decide (head rest = Some DASH)
          then []
          else if bool_decide (ch ∈ [DQUOTE; SQUOTE])
          then Blank :: lex (InStr ch) rest
          else Keep ch :: lex Normal rest
      | InStr quote =>
          if bool_decide (ch = BACKSLASH) then Blank :: lex (Esc quote) rest
          else if bool_decide (ch = quote) then Blank :: lex Normal rest
          else Blank :: lex (InStr quote) rest
      | Esc quote => Escaped :: lex (InStr quote) rest
      end
  end.

(** The mode the automaton is in after [s]; [None] once a comment began. *)
Fixpoint lex_mode (m : mode) (s : pystr) : option mode :=
  match s with
  | [] => Some m
  | ch :: rest =>
      match m with
      | Normal =>
          if bool_decide (ch = DASH) && bool_decide (head rest = Some DASH)
          then None
          else if bool_decide (ch ∈ [DQUOTE; SQUOTE])
          then lex_mode (InStr ch) rest
          else lex_mode Normal rest
      | InStr quote =>
          if bool_decide (ch = BACKSLASH) then lex_mode (Esc quote) rest
          else if bool_decide (ch = quote) then lex_mode Normal rest
          else lex_mode (InStr quote) rest
      | Esc quote => lex_mode (InStr quote) rest
      end
  end.

(** What [_strip_comments] writes for the marks: nothing for an escaped
    character. *)
Definition render (ms : list mark) : pystr :=
  m ← ms; match m with Keep c => [c] | Blank => [SPACE] | Escaped => [] end.

(** Written after the words of the specification: one space for every
    character of a string literal, the escaped ones included. *)
Definition render_aligned (ms : list mark) : pystr :=
  (λ m, match m with Keep c => c | Blank | Escaped => SPACE end) <$> ms.

(** The body of a quoted string literal: plain characters and escape
    pairs, without the closing quote. *)
Inductive string_body (quote : char) : pystr → Prop :=
  | body_nil : string_body quote []
  | body_plain c s :
      c ≠ quote → c ≠ BACKSLASH → string_body quote s →
      string_body quote (c :: s)
  | body_escape c s :
      string_body quote s → string_body quote (BACKSLASH :: c :: s).

(** [str.isalpha] on the ASCII range, where it holds of the 52 letters. *)
Definition isalpha_ascii (c : char) : bool :=
  bool_decide (65 ≤ c ≤ 90 ∨ 97 ≤ c ≤ 122)%N.

(** A frame of the block stack: the closing keyword expected and the line
    where the block was opened. *)
Abbreviation frame := (pystr * Z)%type.

Section Analyzer.

(** [str.isalpha] of a one-character string *)
Variable isalpha : char → bool.

(** ** Word tokenizer *)

(** One iteration of the loop of [_tokenize] over its local [word] and the
    tokens yielded so far. *)
Definition tokenize_step (st : pystr * list pystr) (ch : char)
    : pystr * list pystr :=
  let '(word, yielded) := st in
  if isalpha ch || bool_decide (ch = UNDERSCORE) then (word ++ [ch], yielded)
  else if bool_decide (word ≠ []) then ([], yielded ++ [word])
  else (word, yielded).

Definition _tokenize (line : pystr) : list pystr :=
  let '(word, yielded) := foldl tokenize_step ([], []) line in
  if bool_decide (word ≠ []) then yielded ++ [word] else yielded.

(** ** Block-balance checker *)

(** The body of the inner loop of [_check_block_balance] for one token,
    over the stack and the issues yielded so far. *)
Definition block_token (idx : Z) (raw_line : pystr)
    (st : list frame * list Issue) (token : pystr) : list frame * list Issue :=
  let '(stack, yielded) := st in
  match _BLOCK_PAIRS !! token with
  | Some closer => (stack ++ [(closer, idx)], yielded)
  | None =>
      if bool_decide (token ∈ _BLOCK_ENDINGS) then
        match last stack with
        | None =>
            (stack,
             yielded ++ [mkIssue idx (_find_column raw_line token)
                           (lit "Unexpected '" ++ token ++ lit "'") SYNTAX])
        | Some (expected, start_line) =>
            if bool_decide (expected ≠ token) then
              (stack,
               yielded ++ [mkIssue idx (_find_column raw_line token)
                             (lit "Expected '" ++ expected
                              ++ lit "' opened at line " ++ str_of_int start_line)
                             SYNTAX])
            else (removelast stack, yielded)
        end
      else (stack, yielded)
  end.

Definition block_line (st : list frame * list Issue) (item : Z * pystr)
    : list frame * list Issue :=
  let '(idx, raw_line) := item in
  let line := _strip_comments raw_line in
  let tokens := _tokenize line in
  foldl (block_token idx raw_line) st tokens.

Definition block_scan (lines : list pystr) : list frame * list Issue :=
  foldl block_line ([], []) (enumerate 1 lines).

(** The tokens the checker reads, in reading order, each with the number
    and the raw text of its line; and the loop body on one of them. *)
Definition token_stream (lines : list pystr) : list (Z * pystr * pystr) :=
  '(idx, raw_line) ← enumerate 1 lines;
  (λ token, (idx, raw_line, token)) <$> _tokenize (_strip_comments raw_line).

Definition tokens_read (lines : list pystr) : list pystr :=
  raw_line ← lines; _tokenize (_strip_comments raw_line).

Definition block_item (st : list frame * list Issue)
    (item : Z * pystr * pystr) : list frame * list Issue :=
  let '(idx, raw_line, token) := item in block_token idx raw_line st token.

Definition unclosed (f : frame) : Issue :=
  let '(expected, start_line) := f in
  mkIssue start_line 1 (lit "Unclosed block expecting '" ++ expected ++ lit "'")
          SYNTAX.

Definition _check_block_balance (lines : list pystr) : list Issue :=
  let '(stack, yielded) := block_scan lines in
  yielded ++ (unclosed <$> stack).

(** What the checker still yields when it goes on from [stack] with the
    tokens of [stream] to read: the issues of the rest of the first loop,
    then those of the loop over the frames left. *)
Definition block_rest (stack : list frame) (stream : list (Z * pystr * pystr))
    : list Issue :=
  let '(stack, yielded) := foldl block_item (stack, []) stream in
  yielded ++ (unclosed <$> stack).

(** ** Orchestration *)

(** The first statement of [analyze_source] after the split: what it
    appends to the empty [issues]. *)
Definition final_newline (source : pystr) (lines : list pystr) : list Issue :=
  if bool_decide (source ≠ []) && negb (endswith source LF) then
    [mkIssue (if bool_decide (len lines = 0) then 1 else len lines)
             (match last lines with Some l => len l + 1 | None => 1 end)
             (lit "Missing final newline") FORMAT]
  else [].

Definition analyze_source (source : pystr) (prefer_spaces : bool)
    (indent_size : Z) : outcome (list Issue) :=
  let issues := [] in
  let lines := splitlines source in
  let issues := issues ++ final_newline source lines in
  found ←! _check_indentation lines prefer_spaces indent_size;
  let issues := issues ++ found in
  let issues := issues ++ _check_trailing_whitespace lines in
  let issues := issues ++ _check_block_balance lines in
  Returns issues.

(** Two sources, as lists of lines, with the same block-balance issues but
    for their columns, and the same indentation issues. *)
Definition same_findings (ls1 ls2 : list pystr) : Prop :=
  without_column <$> _check_block_balance ls1
  = without_column <$> _check_block_balance ls2
  ∧ ∀ prefer_spaces indent_size,
      _check_indentation ls1 prefer_spaces indent_size
      = _check_indentation ls2 prefer_spaces indent_size.

End Analyzer.

(** ** Reporting: [Issue.__str__] and [format_issues] *)

(** The [code] field as the string the source stores. *)
Definition code_str (c : IssueCode) : pystr :=
  match c with
  | GENERIC => lit "GENERIC"
  | FORMAT => lit "FORMAT"
  | INDENT => lit "INDENT"
  | SYNTAX => lit "SYNTAX"
  end.

(** [Issue.__str__] *)
Definition Issue_str (i : Issue) : pystr :=
  lit "L" ++ str_of_int (line i) ++ lit ":C" ++ str_of_int (column i)
  ++ lit " " ++ code_str (code i) ++ lit " " ++ message i.

(** [sep.join(parts)] *)
Fixpoint join (sep : pystr) (parts : list pystr) : pystr :=
  match parts with
  | [] => []
  | p :: rest =>
      match rest with
      | [] => p
      | _ :: _ => p ++ sep ++ join sep rest
      end
  end.

(** The escape character of the colour sequences, [\033]. *)
Definition ESC : char := 27%N.

(** The body of the loop of [format_issues]: the part appended for one
    issue. *)
Definition format_part (color : bool) (issue : Issue) : pystr :=
  let prefix := lit "L" ++ str_of_int (line issue) ++ lit ":C"
                ++ str_of_int (column issue) in
  let code := code_str (code issue) in
  let message := message issue in
  let prefix := if color then ESC :: lit "[94m" ++ prefix ++ ESC :: lit "[0m"
                else prefix in
  let code := if color then ESC :: lit "[91m" ++ code ++ ESC :: lit "[0m"
              else code in
  prefix ++ lit " " ++ code ++ lit " " ++ message.

Definition format_issues (issues : list Issue) (color : bool) : pystr :=
  if bool_decide (issues = []) then lit "No issues found."
  else
    let parts := foldl (λ parts issue, parts ++ [format_part color issue])
                       [] issues in
    join [LF] parts.

(** ** The command line front end

    The file system is a finite map from the paths that exist to what
    [read_text] gives for them: the decoded text, or an exception (a
    directory, a file that cannot be read or decoded).  The two output
    streams are the lists of the strings printed to them. *)

Inductive file_entry := Text (content : pystr) | Unreadable.

Inductive io_exn := ReadError | AnalysisError (e : exn).

Record console := mkConsole {
  stdout : list pystr;
  stderr : list pystr;
}.

Record arguments := mkArguments {
  paths : list pystr;
  indent_size : Z;
  allow_tabs : bool;
  color : bool;
}.

(** How [main] ends: it returns its exit code, or an exception leaves it. *)
Inductive main_outcome :=
  | Exits (exit_code : Z) (out : console)
  | Aborts (e : io_exn) (out : console).

Section FrontEnd.

Variable isalpha : char → bool.
Variable fs : gmap pystr file_entry.

(** [analyze_file] *)
Definition analyze_file (path : pystr) (prefer_spaces : bool)
    (indent_size : Z) : io_exn + list Issue :=
  match fs !! path with
  | Some (Text source) =>
      match analyze_source isalpha source prefer_spaces indent_size with
      | Returns issues => inr issues
      | Raises e => inl (AnalysisError e)
      end
  | Some Unreadable | None => inl ReadError
  end.

(** The loop of [main] over the paths still to visit, with the local
    [exit_code] and the output so far. *)
Fixpoint main_loop (args : arguments) (todo : list pystr)
    (exit_code : Z) (out : console) : main_outcome :=
  match todo with
  | [] => Exits exit_code out
  | path :: todo' =>
      if bool_decide (fs !! path = None) then
        let out := mkConsole (stdout out)
                             (stderr out ++ [path ++ lit ": file not found"]) in
        main_loop args todo' 2 out
      else
        match analyze_file path (negb (allow_tabs args)) (indent_size args) with
        | inl e => Aborts e out
        | inr issues =>
            let header := lit "== " ++ path ++ lit " ==" in
            let out := mkConsole (stdout out ++ [header]) (stderr out) in
            let out := mkConsole
                         (stdout out ++ [format_issues issues (color args)])
                         (stderr out) in
            main_loop args todo'
                      (if bool_decide (issues ≠ []) then 1 else exit_code) out
        end
  end.

(** [main], after the arguments are parsed. *)
Definition main (args : arguments) : main_outcome :=
  main_loop args (paths args) 0 (mkConsole [] []).

End FrontEnd.

(** ** Issues named by the specification *)

Definition trailing_issue (idx : Z) (l : pystr) : Issue :=
  mkIssue idx (len l) (lit "Trailing whitespace") FORMAT.

Definition mixed_issue (idx : Z) : Issue :=
  mkIssue idx 1 (lit "Mixed tabs and spaces in indentation") INDENT.

Definition tab_issue (idx col : Z) : Issue :=
  mkIssue idx col (lit "Tab indentation found (expected spaces)") INDENT.

Definition width_issue (idx col indent_size : Z) : Issue :=
  mkIssue idx col
    (lit "Indentation width should be a multiple of " ++ str_of_int indent_size)
    INDENT.

(** The leading run of spaces and tabs of a line. *)
Definition leading_run (l : pystr) : pystr :=
  take (length l - length (lstrip [SPACE; TAB] l))%nat l.

(** Written after the words of the specification: the indentation rules of
    its section 4.3 for one line, a decision list with at most one
    finding. *)
Definition indentation_rules (prefer_spaces : bool) (indent_size : Z)
    (idx : Z) (l : pystr) : list Issue :=
  let indent := leading_run l in
  if decide (lstrip [SPACE; TAB] l = []) then []
  else if decide (SPACE ∈ indent ∧ TAB ∈ indent) then [mixed_issue idx]
  else if decide (prefer_spaces = true ∧ TAB ∈ indent)
  then [tab_issue idx (default 0 (index TAB l) + 1)]
  else if decide (indent ≠ [] ∧ Forall (λ c, c = SPACE) indent
                  ∧ len indent `mod` indent_size ≠ 0)
  then [width_issue idx (len indent) indent_size]
  else [].

(** The automaton state for the loop variable [in_string]. *)
Definition mode_of (in_string : option char) : mode :=
  match in_string with None => Normal | Some quote => InStr quote end.

(** [t] occurs in [s] at index [k], and for the first time there. *)
Definition occurs_at (s t : pystr) (k : nat) : Prop :=
  ∃ a b, s = a ++ t ++ b ∧ length a = k.

Definition first_occurrence (s t : pystr) (k : nat) : Prop :=
  occurs_at s t k ∧ ∀ j, (j < k)%nat → ¬ occurs_at s t j.

(** The search of [find] with its result as an optional index. *)
Fixpoint find_index (s t : pystr) : option nat :=
  if startswith s t then Some 0%nat
  else match s with
       | [] => None
       | _ :: s' => S <$> find_index s' t
       end.

(** The messages of the block-balance checker. *)
Definition unexpected_issue (idx col : Z) (token : pystr) : Issue :=
  mkIssue idx col (lit "Unexpected '" ++ token ++ lit "'") SYNTAX.

Definition expected_issue (idx col : Z) (expected : pystr) (start_line : Z)
    : Issue :=
  mkIssue idx col
    (lit "Expected '" ++ expected ++ lit "' opened at line "
     ++ str_of_int start_line) SYNTAX.

Definition unclosed_issue (start_line : Z) (expected : pystr) : Issue :=
  mkIssue start_line 1 (lit "Unclosed block expecting '" ++ expected ++ lit "'")
          SYNTAX.

(** A token that the block-balance checker acts on. *)
Definition keyword (t : pystr) : Prop :=
  is_Some (_BLOCK_PAIRS !! t) ∨ t ∈ _BLOCK_ENDINGS.

(** Token sequences in which every opening keyword is closed by its own
    closing keyword, properly nested; other words may stand anywhere. *)
Inductive balanced : list pystr → Prop :=
  | balanced_nil : balanced []
  | balanced_word t ts :
      ¬ keyword t → balanced ts → balanced (t :: ts)
  | balanced_block opener closer inner rest :
      _BLOCK_PAIRS !! opener = Some closer →
      balanced inner → balanced rest →
      balanced (opener :: inner ++ closer :: rest).

(** The issues yielded while the lines are scanned. *)
Definition scan_issue (i : Issue) : Prop :=
  (∃ idx col token, i = unexpected_issue idx col token)
  ∨ (∃ idx col expected start_line,
       i = expected_issue idx col expected start_line).

(** An issue that reports an unclosed block. *)
Definition reports_unclosed (i : Issue) : Prop :=
  lit "Unclosed block expecting '" `prefix_of` message i.

(** The stack while line [hi] is read: every frame expects a closing
    keyword and was opened on one of the lines 1 to [hi], and the frames
    stand in the order of their opening lines. *)
Definition frames_ok (hi : Z) (stack : list (pystr * Z)) : Prop :=
  Forall (λ f, f.1 ∈ _BLOCK_ENDINGS ∧ 1 ≤ f.2 ≤ hi) stack
  ∧ StronglySorted (λ f g, f.2 ≤ g.2) stack.

Global Instance mark_eq_dec : EqDecision mark.
Proof. solve_decision. Defined.

Global Instance mode_eq_dec : EqDecision mode.
Proof. solve_decision. Defined.

Global Instance keyword_dec t : Decision (keyword t).
Proof. unfold keyword. apply _. Defined.

Global Instance reports_unclosed_dec i : Decision (reports_unclosed i).
Proof. unfold reports_unclosed. apply _. Defined.

(** Two states of the scan that differ in the columns of the issues at
    most. *)
Definition same_scan (st1 st2 : list (pystr * Z) * list Issue) : Prop :=
  st1.1 = st2.1 ∧ without_column <$> st1.2 = without_column <$> st2.2.

(** Two lines with the same indentation, both blank or both not. *)
Definition same_indentation (l1 l2 : pystr) : Prop :=
  leading_run l1 = leading_run l2
  ∧ (lstrip [SPACE; TAB] l1 = [] ↔ lstrip [SPACE; TAB] l2 = []).

(** ** Vocabulary of the further properties *)

(** A character that [_tokenize] collects into a word. *)
Definition word_char (isalpha : char → bool) (c : char) : bool :=
  isalpha c || bool_decide (c = UNDERSCORE).

(** No dash is followed by a dash. *)
Fixpoint no_marker (s : pystr) : Prop :=
  match s with
  | [] => True
  | c :: s' => (c = DASH → head s' ≠ Some DASH) ∧ no_marker s'
  end.

(** A line whose indentation the indentation check accepts: a blank line,
    a run of spaces of a length that the indent size divides, or, when tabs
    are allowed, a run of tabs. *)
Definition clean_indent (prefer_spaces : bool) (indent_size : Z)
    (l : pystr) : Prop :=
  lstrip [SPACE; TAB] l = []
  ∨ (Forall (λ c, c = SPACE) (leading_run l)
     ∧ len (leading_run l) `mod` indent_size = 0)
  ∨ (prefer_spaces = false ∧ Forall (λ c, c = TAB) (leading_run l)).

(** An issue that points into the source: at one of its lines, and at a
    column of that line or just after its end. *)
Definition well_placed (lines : list pystr) (i : Issue) : Prop :=
  ∃ l, lines !! Z.to_nat (line i - 1) = Some l
       ∧ 1 ≤ line i ∧ 1 ≤ column i ≤ len l + 1.

(** A string without a line boundary. *)
Definition one_line (s : pystr) : Prop :=
  Forall (λ c, is_linebreak c = false) s.

(** Line [n] of the lines exists and has a block keyword among the tokens
    that the checker reads from it. *)
Definition keyword_line (isalpha : char → bool) (lines : list pystr) (n : Z)
    : Prop :=
  1 ≤ n
  ∧ ∃ raw, lines !! Z.to_nat (n - 1) = Some raw
           ∧ Exists keyword (_tokenize isalpha (_strip_comments raw)).

Section FrontEndVocabulary.

Variable isalpha : char → bool.
Variable fs : gmap pystr file_entry.

(** What one path contributes to the exit code: 2 when it does not exist,
    1 when its analysis finds issues, 0 otherwise. *)
Definition path_status (args : arguments) (path : pystr) : Z :=
  match fs !! path with
  | None => 2
  | Some _ =>
      match analyze_file isalpha fs path (negb (allow_tabs args))
                         (indent_size args) with
      | inr (_ :: _) => 1
      | _ => 0
      end
  end.

(** A path that [main] gets past: it does not exist, or it is read and
    analysed without an exception. *)
Definition passable (args : arguments) (path : pystr) : Prop :=
  fs !! path = None
  ∨ ∃ issues, analyze_file isalpha fs path (negb (allow_tabs args))
                           (indent_size args) = inr issues.

End FrontEndVocabulary.

(** The last status that is not 0, or 0 when there is none. *)
Definition last_problem (statuses : list Z) : Z :=
  default 0 (last (filter (λ c, c ≠ 0) statuses)).

(** ** Sources of the test suite *)

Definition join_lines (ls : list pystr) : pystr :=
  l ← ls; l ++ [LF].

Definition greet_source : pystr :=
  join_lines [lit "function greet(name)";
              lit "    if name then";
              lit "        print('Hello '..name)";
              lit "    end";
              lit "end"].

(** Closed decidable statements are settled by evaluation. *)
Ltac decide_by_computation :=
  apply (bool_decide_unpack _); vm_compute; exact I.

(** * Properties *)

(** ** The test suite of the repository

    The sources of [tests/test_analyzer.py], analysed with the default
    configuration unless the test says otherwise. *)

Example test_missing_final_newline_detected :
  analyze_source isalpha_ascii (lit "print('hello world')") true 4
  = Returns [mkIssue 1 21 (lit "Missing final newline") FORMAT].
Proof. by vm_compute. Qed.

Example test_trailing_whitespace_detected :
  analyze_source isalpha_ascii (join_lines [lit "print('hi')  "]) true 4
  = Returns [mkIssue 1 13 (lit "Trailing whitespace") FORMAT].
Proof. by vm_compute. Qed.

Example test_mixed_indentation_detected :
  analyze_source isalpha_ascii
    (join_lines [lit "if true then"; TAB :: lit "  print('oops')"; lit "end"])
    true 4
  = Returns [mkIssue 2 1 (lit "Mixed tabs and spaces in indentation") INDENT].
Proof. by vm_compute. Qed.

Example test_unmatched_end_detected :
  analyze_source isalpha_ascii
    (join_lines [lit "if true then"; lit "  print('oops')"]) true 4
  = Returns [mkIssue 2 2 (lit "Indentation width should be a multiple of 4")
                     INDENT;
             mkIssue 1 1 (lit "Unclosed block expecting 'end'") SYNTAX].
Proof. by vm_compute. Qed.

Example test_balanced_blocks_are_clean :
  analyze_source isalpha_ascii greet_source true 4 = Returns [].
Proof. by vm_compute. Qed.

Example test_until_matches_repeat :
  analyze_source isalpha_ascii
    (join_lines [lit "repeat"; lit "    if ready then";
                 lit "        done = true"; lit "    end"; lit "until done"])
    true 4
  = Returns [].
Proof. by vm_compute. Qed.

Example test_unexpected_until_reports_issue :
  analyze_source isalpha_ascii
    (join_lines [lit "if true then"; lit "    print('hi')"; lit "until false";
                 lit "end"])
    true 4
  = Returns [mkIssue 3 1 (lit "Expected 'end' opened at line 1") SYNTAX].
Proof. by vm_compute. Qed.

Example test_tabs_allowed_when_requested :
  analyze_source isalpha_ascii
    (join_lines [lit "if true then"; TAB :: lit "print('ok')"; lit "end"])
    false 4
  = Returns [].
Proof. by vm_compute. Qed.

(** ** The stripper and the tokenizer on sample lines *)

Example strip_comments_example :
  _strip_comments (lit "x = 'a--b' .. y -- 'c'") = lit "x =        .. y ".
Proof. by vm_compute. Qed.

Example strip_comments_escape_example :
  _strip_comments (lit "print('it\'s') -- end") = lit "print(      ) ".
Proof. by vm_compute. Qed.

Example tokenize_example :
  _tokenize isalpha_ascii (lit "print(      ) end2 _x")
  = [lit "print"; lit "end"; lit "_x"].
Proof. by vm_compute. Qed.

Example find_column_in_string :
  _find_column (lit "x = 'end' end") (lit "end") = 6.
Proof. by vm_compute. Qed.

Example strip_loop_needs_fuel : strip_loop 3 (lit "abcd") 0 None [] = None.
Proof. by vm_compute. Qed.

(** ** Strings *)

Lemma lstrip_suffix chars s : ∃ k, s = k ++ lstrip chars s ∧ Forall (λ c, c ∈ chars) k.
Proof.
  induction s as [|c s IH]; simpl.
  - exists []. split; [done | constructor].
  - case_bool_decide as Hc.
    + destruct IH as (k & Hk & Hall). exists (c :: k). split.
      * simpl. by rewrite <- Hk.
      * by constructor.
    + exists []. split; [done | constructor].
Qed.

Lemma lstrip_length chars s : (length (lstrip chars s) ≤ length s)%nat.
Proof.
  destruct (lstrip_suffix chars s) as (k & Hk & _).
  rewrite Hk at 2. rewrite length_app. lia.
Qed.

Lemma lstrip_head chars s c rest :
  lstrip chars s = c :: rest → c ∉ chars.
Proof.
  induction s as [|a s IH]; simpl; [done |].
  case_bool_decide; [done |]. intros [= -> ->]. done.
Qed.

Lemma lstrip_idem chars s : lstrip chars (lstrip chars s) = lstrip chars s.
Proof.
  destruct (lstrip chars s) as [|c rest] eqn:E; [done |].
  apply lstrip_head in E. simpl. by rewrite bool_decide_eq_false_2.
Qed.

Lemma lstrip_same_length chars s :
  length (lstrip chars s) = length s → lstrip chars s = s.
Proof.
  destruct (lstrip_suffix chars s) as (k & Hk & _). intros Hlen.
  rewrite Hk in Hlen at 2. rewrite length_app in Hlen.
  destruct k; [by rewrite Hk at 2 | simpl in Hlen; lia].
Qed.

Lemma lstrip_app_stop chars k c rest :
  Forall (λ a, a ∈ chars) k → c ∉ chars →
  lstrip chars (k ++ c :: rest) = c :: rest.
Proof.
  intros Hall Hc. induction Hall as [|a k Ha _ IH]; simpl.
  - by rewrite bool_decide_eq_false_2.
  - by rewrite bool_decide_eq_true_2.
Qed.

Lemma rstrip_length chars s : (length (rstrip chars s) ≤ length s)%nat.
Proof.
  unfold rstrip. rewrite length_reverse.
  etrans; [apply lstrip_length |]. by rewrite length_reverse.
Qed.

Lemma rstrip_idem chars s : rstrip chars (rstrip chars s) = rstrip chars s.
Proof. unfold rstrip. by rewrite reverse_involutive, lstrip_idem. Qed.

Lemma rstrip_neq_shorter chars s :
  rstrip chars s ≠ s ↔ (length (rstrip chars s) < length s)%nat.
Proof.
  split.
  - intros Hne. pose proof (rstrip_length chars s) as Hle.
    destruct (decide (length (rstrip chars s) = length s)) as [Heq|]; [| lia].
    exfalso. apply Hne. unfold rstrip in *.
    rewrite length_reverse in Heq. rewrite <- (length_reverse s) in Heq.
    apply lstrip_same_length in Heq. by rewrite Heq, reverse_involutive.
  - intros Hlt Heq. rewrite Heq in Hlt. lia.
Qed.

(** ** Enumeration *)

Lemma enumerate_lookup {A} (xs : list A) start k :
  enumerate start xs !! k = (λ x, (start + Z.of_nat k, x)) <$> xs !! k.
Proof.
  revert start k. induction xs as [|x xs IH]; intros start k; [done |].
  destruct k as [|k]; simpl.
  - f_equal. f_equal. lia.
  - rewrite IH. destruct (xs !! k); simpl; [| done]. do 2 f_equal. lia.
Qed.

Lemma elem_of_enumerate {A} (xs : list A) start idx x :
  (idx, x) ∈ enumerate start xs ↔
  ∃ k, xs !! k = Some x ∧ idx = start + Z.of_nat k.
Proof.
  rewrite list_elem_of_lookup. split.
  - intros [k Hk]. rewrite enumerate_lookup in Hk. exists k.
    destruct (xs !! k); simplify_eq/=. done.
  - intros (k & Hk & ->). exists k. rewrite enumerate_lookup, Hk. done.
Qed.

(** ** Trailing whitespace *)

Lemma trailing_body_shorter idx l :
  trailing_body idx l =
  if decide (length (rstrip [SPACE; TAB] l) < length l)%nat
  then [trailing_issue idx l] else [].
Proof.
  unfold trailing_body. case_bool_decide as H; case_decide as H'; try done.
  - by apply rstrip_neq_shorter in H.
  - by apply rstrip_neq_shorter in H'.
Qed.

Lemma trailing_body_stripped idx l :
  trailing_body idx (rstrip [SPACE; TAB] l) = [].
Proof.
  unfold trailing_body. rewrite rstrip_idem. by rewrite bool_decide_eq_false_2 by auto.
Qed.

Lemma check_trailing_enumerate (items : list (Z * pystr)) :
  Forall (λ it, trailing_body it.1 it.2 = []) items →
  ('(idx, l) ← items; trailing_body idx l) = [].
Proof.
  induction 1 as [|[idx l] items H _ IH]; [done |].
  rewrite bind_cons, IH. simpl in H. by rewrite H.
Qed.

(** C8. A "Trailing whitespace" issue is yielded for a line exactly when
    removing its trailing spaces and tabs shortens it, with the length of
    the line as its column; on lines whose trailing spaces and tabs are
    already removed the check yields nothing. *)
Theorem trailing_whitespace_detection (lines : list pystr) :
  (∀ iss, iss ∈ _check_trailing_whitespace lines ↔
     ∃ k l, lines !! k = Some l
       ∧ (length (rstrip [SPACE; TAB] l) < length l)%nat
       ∧ iss = mkIssue (Z.of_nat k + 1) (len l) (lit "Trailing whitespace") FORMAT)
  ∧ (∀ l, _check_trailing_whitespace [l] =
       if decide (length (rstrip [SPACE; TAB] l) < length l)%nat
       then [mkIssue 1 (len l) (lit "Trailing whitespace") FORMAT] else [])
  ∧ _check_trailing_whitespace (rstrip [SPACE; TAB] <$> lines) = [].
Proof.
  split; [| split].
  - intros iss. unfold _check_trailing_whitespace.
    rewrite list_elem_of_bind. split.
    + intros ([idx l] & Hin & Hit). apply elem_of_enumerate in Hit as (k & Hk & ->).
      rewrite trailing_body_shorter in Hin. case_decide; [| by apply elem_of_nil in Hin].
      apply list_elem_of_singleton in Hin as ->.
      exists k, l. split_and!; [done.. |]. unfold trailing_issue. f_equal. lia.
    + intros (k & l & Hk & Hlt & ->). exists (1 + Z.of_nat k, l). split.
      * rewrite trailing_body_shorter. rewrite decide_True by done.
        apply list_elem_of_singleton. unfold trailing_issue. f_equal. lia.
      * apply elem_of_enumerate. eauto.
  - intros l. unfold _check_trailing_whitespace. simpl.
    rewrite trailing_body_shorter, app_nil_r. done.
  - unfold _check_trailing_whitespace. apply check_trailing_enumerate.
    apply Forall_forall. intros [idx l] Hin.
    apply elem_of_enumerate in Hin as (k & Hk & ->).
    rewrite list_lookup_fmap in Hk. destruct (lines !! k); simplify_eq/=.
    apply trailing_body_stripped.
Qed.

(** ** Indentation *)

Lemma leading_run_split l :
  l = leading_run l ++ lstrip [SPACE; TAB] l
  ∧ Forall (λ c, c ∈ [SPACE; TAB]) (leading_run l).
Proof.
  unfold leading_run.
  destruct (lstrip_suffix [SPACE; TAB] l) as (k & Hk & Hall).
  assert (take (length l - length (lstrip [SPACE; TAB] l)) l = k) as ->.
  { rewrite Hk at 3. apply take_app_length'. rewrite Hk at 1.
    rewrite length_app. lia. }
  done.
Qed.

Lemma index_head c s : index c (c :: s) = Some 0.
Proof. simpl. by rewrite bool_decide_eq_true_2. Qed.

Lemma index_app_head c s t : c ∈ s → index c (s ++ t) = index c s.
Proof.
  induction s as [|a s IH]; simpl; [by intros ?%elem_of_nil |].
  case_bool_decide; [done |]. intros [?|Hin]%elem_of_cons; [done |].
  by rewrite IH.
Qed.

Lemma remove_char_id c s : remove_char c s = s ↔ c ∉ s.
Proof.
  unfold remove_char. induction s as [|a s IH].
  - split; [intros _; apply not_elem_of_nil | done].
  - rewrite filter_cons, not_elem_of_cons. case_decide as Ha.
    + split.
      * intros [= Hs]. split; [done |]. by apply IH.
      * intros [_ Hs]. f_equal. by apply IH.
    + split; [| intros [? _]; by destruct Ha].
      intros Hs. exfalso.
      pose proof (length_filter (λ a, a ≠ c) s) as Hlen.
      rewrite Hs in Hlen. simpl in Hlen. lia.
Qed.

Lemma only_tabs indent :
  Forall (λ c, c ∈ [SPACE; TAB]) indent → SPACE ∉ indent → TAB ∈ indent →
  ∃ rest, indent = TAB :: rest.
Proof.
  intros Hall Hsp Htab. destruct Hall as [|c rest Hc _].
  - by apply elem_of_nil in Htab.
  - apply not_elem_of_cons in Hsp as [Hne _].
    apply elem_of_cons in Hc as [->|Hc]; [done |].
    apply list_elem_of_singleton in Hc as ->. eauto.
Qed.

Lemma only_spaces indent :
  Forall (λ c, c ∈ [SPACE; TAB]) indent → TAB ∉ indent →
  Forall (λ c, c = SPACE) indent.
Proof.
  induction 1 as [|c rest Hc _ IH]; intros Htab; constructor.
  - apply not_elem_of_cons in Htab as [Hne _].
    apply elem_of_cons in Hc as [->|Hc]; [done |].
    by apply list_elem_of_singleton in Hc.
  - apply IH. by apply not_elem_of_cons in Htab as [_ ?].
Qed.

Lemma set_of_spaces indent :
  indent ≠ [] → Forall (λ c, c = SPACE) indent →
  list_to_set indent =@{gset char} {[ SPACE ]}.
Proof.
  intros Hne Hall. apply set_eq. intros x.
  rewrite elem_of_list_to_set, elem_of_singleton. split.
  - intros Hin. by eapply Forall_forall in Hall.
  - intros ->. destruct Hall as [|c rest -> _]; [done | left].
Qed.

Lemma set_of_spaces_inv indent :
  list_to_set indent =@{gset char} {[ SPACE ]} → Forall (λ c, c = SPACE) indent.
Proof.
  intros Heq. apply Forall_forall. intros x Hin.
  apply (elem_of_list_to_set (C:=gset char)) in Hin. rewrite Heq in Hin.
  by apply elem_of_singleton in Hin.
Qed.

(** What one iteration of the indentation loop does, by the rules of the
    specification: it raises exactly when the width rule has to divide by
    an indent size of zero. *)
Lemma indentation_body_rules ps isz idx l :
  indentation_body ps isz idx l =
  if decide (isz = 0 ∧ lstrip [SPACE; TAB] l ≠ []
             ∧ leading_run l ≠ [] ∧ TAB ∉ leading_run l)
  then Raises ZeroDivisionError
  else Returns (indentation_rules ps isz idx l).
Proof.
  unfold indentation_body, indentation_rules. fold (leading_run l).
  destruct (leading_run_split l) as [Hsplit Hall].
  set (indent := leading_run l) in *.
  case_bool_decide as Hblank.
  { rewrite decide_False by tauto. by rewrite decide_True. }
  rewrite (decide_False (P := lstrip _ _ = [])) by done.
  destruct (decide (SPACE ∈ indent)) as [Hsp|Hsp];
    destruct (decide (TAB ∈ indent)) as [Htab|Htab].
  - rewrite !bool_decide_eq_true_2 by done. cbn.
    rewrite decide_False by tauto. by rewrite decide_True.
  - rewrite (bool_decide_eq_false_2 (TAB ∈ indent)) by done.
    rewrite !andb_false_r. cbn.
    rewrite (decide_False (P := _ ∈ _ ∧ _ ∈ _)) by tauto.
    rewrite (decide_False (P := ps = true ∧ _)) by tauto.
    assert (indent ≠ []) as Hne by (intros E; rewrite E in Hsp; by apply elem_of_nil in Hsp).
    pose proof (only_spaces _ Hall Htab) as Hspaces.
    rewrite (bool_decide_eq_true_2 (indent ≠ [])) by done.
    rewrite (bool_decide_eq_false_2 (remove_char _ _ = _)) by (rewrite remove_char_id; tauto).
    rewrite (bool_decide_eq_true_2 (list_to_set _ = _)) by (by apply set_of_spaces).
    cbn. case_bool_decide as Hz.
    + by rewrite decide_True.
    + rewrite decide_False by tauto.
      case_bool_decide as Hmod.
      * by rewrite decide_True.
      * rewrite decide_False by tauto. done.
  - rewrite (bool_decide_eq_false_2 (SPACE ∈ indent)) by done. cbn.
    rewrite (decide_False (P := isz = 0 ∧ _)) by tauto.
    rewrite (decide_False (P := _ ∈ _ ∧ _ ∈ _)) by tauto.
    destruct (only_tabs _ Hall Hsp Htab) as [rest Hrest].
    assert (indent ≠ []) as Hne by (by rewrite Hrest).
    rewrite (bool_decide_eq_true_2 (TAB ∈ indent)) by done.
    rewrite (bool_decide_eq_true_2 (indent ≠ [])) by done.
    rewrite (bool_decide_eq_true_2 (remove_char _ _ = _)) by (by rewrite remove_char_id).
    destruct ps; cbn.
    + rewrite decide_True by tauto.
      assert (index TAB l = index TAB indent) as ->.
      { rewrite Hsplit. by apply index_app_head. }
      destruct (index TAB indent) as [k|] eqn:Hk; [done |].
      rewrite Hrest, index_head in Hk. done.
    + rewrite (decide_False (P := false = true ∧ _)) by (by intros [? _]).
      rewrite decide_False; [done |]. intros (_ & Hs & _).
      rewrite Hrest in Hs. by apply Forall_cons in Hs as [? _].
  - rewrite (bool_decide_eq_false_2 (SPACE ∈ indent)) by done.
    rewrite (bool_decide_eq_false_2 (TAB ∈ indent)) by done.
    rewrite !andb_false_r. cbn.
    assert (indent = []) as Hnil.
    { destruct Hall as [|c rest Hc _]; [done |]. exfalso.
      apply elem_of_cons in Hc as [->|Hc]; [apply Hsp; left |].
      apply list_elem_of_singleton in Hc as ->. apply Htab; left. }
    rewrite (bool_decide_eq_false_2 (indent ≠ [])) by tauto. cbn.
    rewrite (decide_False (P := isz = 0 ∧ _)) by tauto.
    rewrite (decide_False (P := _ ∈ _ ∧ _ ∈ _)) by tauto.
    rewrite (decide_False (P := ps = true ∧ _)) by tauto.
    rewrite decide_False by tauto. done.
Qed.

Lemma for_yield_cases {A} (body : A → outcome (list Issue)) (P : A → Prop)
    `{!∀ x, Decision (P x)} (e : exn) (f : A → list Issue) (items : list A) :
  (∀ x, body x = if decide (P x) then Raises e else Returns (f x)) →
  for_yield body items =
  if decide (Exists P items) then Raises e else Returns (items ≫= f).
Proof.
  intros Hbody. induction items as [|x items IH].
  - case_decide as HE; [by apply Exists_nil in HE | done].
  - cbn [for_yield]. rewrite Hbody, IH.
    destruct (decide (P x)) as [HP|HP]; cbn [obind].
    + rewrite decide_True; [done |]. by left.
    + destruct (decide (Exists P items)) as [HE|HE]; cbn [obind].
      * rewrite decide_True; [done |]. by right.
      * rewrite decide_False; [done |]. by intros [?|?]%Exists_cons.
Qed.

Lemma filter_all {A} (P : A → Prop) `{!∀ x, Decision (P x)} (l : list A) :
  Forall P l → filter P l = l.
Proof.
  induction 1 as [|x l Hx _ IH]; [done |].
  by rewrite filter_cons_True, IH.
Qed.

Lemma filter_none {A} (P : A → Prop) `{!∀ x, Decision (P x)} (l : list A) :
  Forall (λ x, ¬ P x) l → filter P l = [].
Proof.
  induction 1 as [|x l Hx _ IH]; [done |].
  by rewrite filter_cons_False, IH.
Qed.

(** The findings of a per-line generator, selected by line number. *)
Lemma filter_line_enumerate (f : Z → pystr → list Issue) start lines k l :
  (∀ idx l, Forall (λ i, line i = idx) (f idx l)) →
  lines !! k = Some l →
  filter (λ i, line i = start + Z.of_nat k)
         ('(idx, l) ← enumerate start lines; f idx l)
  = f (start + Z.of_nat k) l.
Proof.
  intros Hf. revert start k. induction lines as [|x lines IH]; intros start k Hk;
    [done |].
  simpl enumerate. rewrite bind_cons, filter_app.
  destruct k as [|k]; simpl in Hk.
  - injection Hk as ->. rewrite Z.add_0_r.
    rewrite filter_all by apply Hf.
    rewrite filter_none; [by rewrite app_nil_r |].
    apply Forall_forall. intros i Hi.
    apply list_elem_of_bind in Hi as ([idx y] & Hi & Hy).
    apply elem_of_enumerate in Hy as (j & _ & ->).
    pose proof (Hf (start + 1 + Z.of_nat j) y) as Hall.
    eapply Forall_forall in Hall; [| done]. lia.
  - rewrite filter_none.
    + simpl. specialize (IH (start + 1) k Hk).
      replace (start + 1 + Z.of_nat k) with (start + Z.of_nat (S k)) in IH by lia.
      done.
    + eapply Forall_impl; [apply Hf |]. simpl. intros i ->. lia.
Qed.

Lemma indentation_rules_line ps isz idx l :
  Forall (λ i, line i = idx) (indentation_rules ps isz idx l).
Proof.
  unfold indentation_rules. repeat case_decide; repeat constructor.
Qed.

(** C7. The indentation check raises only when it has to divide by an
    indent size of zero.  Otherwise it yields at most one issue for each
    line, always an INDENT one: a line whose leading run has both a space
    and a tab gets the "Mixed" issue at column 1 and nothing else (nothing
    at all when the line is blank); any other line gets nothing, or the tab
    issue at the column of the first tab, only when tabs are disallowed, or
    the width issue at the indent length, only for a non-empty run of spaces
    whose length is not a multiple of the indent size. *)
Theorem indentation_at_most_one_per_line
    (lines : list pystr) (prefer_spaces : bool) (indent_size : Z) :
  match _check_indentation lines prefer_spaces indent_size with
  | Raises e => e = ZeroDivisionError ∧ indent_size = 0
  | Returns found =>
      ∀ (k : nat) (l : pystr), lines !! k = Some l →
        let idx := Z.of_nat k + 1 in
        let indent := leading_run l in
        let yielded := filter (λ i, line i = idx) found in
        (length yielded ≤ 1)%nat
        ∧ Forall (λ i, code i = INDENT) yielded
        ∧ (SPACE ∈ indent → TAB ∈ indent →
           yielded = if decide (lstrip [SPACE; TAB] l = []) then []
                     else [mixed_issue idx])
        ∧ (¬ (SPACE ∈ indent ∧ TAB ∈ indent) →
           yielded = []
           ∨ (prefer_spaces = true ∧ TAB ∈ indent
              ∧ ∃ col, index TAB l = Some (col - 1)
                       ∧ yielded = [tab_issue idx col])
           ∨ (indent ≠ [] ∧ Forall (λ c, c = SPACE) indent
              ∧ len indent `mod` indent_size ≠ 0
              ∧ yielded = [width_issue idx (len indent) indent_size]))
  end.
Proof.
  unfold _check_indentation.
  rewrite (for_yield_cases _
    (λ it, indent_size = 0 ∧ lstrip [SPACE; TAB] it.2 ≠ []
           ∧ leading_run it.2 ≠ [] ∧ TAB ∉ leading_run it.2)
    ZeroDivisionError
    (λ '(idx, l), indentation_rules prefer_spaces indent_size idx l)).
  2: { intros [idx l]. apply indentation_body_rules. }
  case_decide as Hraise.
  - split; [done |]. apply Exists_exists in Hraise as (it & _ & Hz & _). done.
  - intros k l Hk. cbv zeta. set (indent := leading_run l).
    rewrite (Z.add_comm (Z.of_nat k) 1).
    rewrite (filter_line_enumerate
               (indentation_rules prefer_spaces indent_size) 1 lines k l)
      by (apply indentation_rules_line || done).
    unfold indentation_rules. fold indent.
    destruct (leading_run_split l) as [Hsplit Hall]. fold indent in Hsplit, Hall.
    split_and!.
    + repeat case_decide; simpl; lia.
    + repeat case_decide; repeat constructor.
    + intros Hsp Htab. case_decide; [done |]. by rewrite decide_True.
    + intros Hnot. case_decide; [by left |].
      rewrite (decide_False (P := _ ∈ _ ∧ _ ∈ _)) by done.
      case_decide as Ht.
      * right; left. destruct Ht as [-> Htab]. split_and!; [done.. |].
        assert (index TAB l = index TAB indent) as Hidx.
        { rewrite Hsplit. by apply index_app_head. }
        assert (SPACE ∉ indent) as Hsp by tauto.
        destruct (only_tabs _ Hall Hsp Htab) as [rest Hrest].
        rewrite Hidx, Hrest, index_head. simpl. exists 1. done.
      * case_decide as Hw; [| by left]. right; right. tauto.
Qed.

(** ** The stripper and the automaton *)

Lemma render_cons m ms :
  render (m :: ms) =
  match m with Keep c => [c] | Blank => [SPACE] | Escaped => [] end ++ render ms.
Proof. done. Qed.

Lemma head_drop_lookup {A} (l : list A) i : head (drop i l) = l !! i.
Proof. rewrite head_lookup, lookup_drop. f_equal. lia. Qed.

Lemma lex_escape_tail quote (l : pystr) i :
  render (lex (Esc quote) (drop (S i) l))
  = render (lex (InStr quote) (drop (S (S i)) l)).
Proof.
  destruct (l !! S i) as [c|] eqn:Hc.
  - by rewrite (drop_S l c (S i)) by done.
  - apply lookup_ge_None in Hc. rewrite !drop_ge by lia. done.
Qed.

(** The loop invariant of [_strip_comments]: what has been written, followed
    by what the automaton writes for the rest of the line.  With fuel for
    the characters still to read the loop finishes. *)
Lemma strip_loop_lex (l : pystr) fuel i in_string result :
  (length l ≤ i + fuel)%nat →
  strip_loop fuel l i in_string result
  = Some (result ++ render (lex (mode_of in_string) (drop i l))).
Proof.
  revert i in_string result.
  induction fuel as [|fuel IH]; intros i in_string result Hfuel.
  - cbn [strip_loop]. rewrite lookup_ge_None_2 by lia.
    rewrite drop_ge by lia. destruct in_string; by rewrite app_nil_r.
  - cbn [strip_loop]. destruct (l !! i) as [ch|] eqn:Hch.
    2: { apply lookup_ge_None in Hch. rewrite drop_ge by lia.
         destruct in_string; by rewrite app_nil_r. }
    rewrite (drop_S l ch i) by done.
    replace (i + 1)%nat with (S i) by lia.
    destruct in_string as [quote|]; cbn [mode_of lex].
    + case_bool_decide as Hbs.
      * rewrite IH by lia. cbn [mode_of]. rewrite render_cons, lex_escape_tail.
        replace (S i + 1)%nat with (S (S i)) by lia. by rewrite <- app_assoc.
      * case_bool_decide as Hq; rewrite IH by lia; cbn [mode_of];
          by rewrite render_cons, <- app_assoc.
    + rewrite head_drop_lookup.
      destruct (bool_decide (ch = DASH) && bool_decide (l !! S i = Some DASH)).
      * by rewrite app_nil_r.
      * case_bool_decide as Hq; rewrite IH by lia; cbn [mode_of];
          by rewrite render_cons, <- app_assoc.
Qed.

(** [_strip_comments] returns, and returns what the automaton writes. *)
Lemma strip_comments_lex (l : pystr) :
  strip_loop (length l) l 0 None [] = Some (_strip_comments l)
  ∧ _strip_comments l = render (lex Normal l).
Proof.
  unfold _strip_comments. rewrite strip_loop_lex by lia. by rewrite drop_0.
Qed.

Lemma strip_loop_fuel (l : pystr) fuel :
  (length l ≤ fuel)%nat → strip_loop fuel l 0 None [] = Some (_strip_comments l).
Proof.
  intros Hfuel. rewrite strip_loop_lex by lia.
  rewrite drop_0. simpl. by rewrite (proj2 (strip_comments_lex l)).
Qed.

(** A kept character stands at its own index among the marks. *)
Lemma lex_keep_aligned m (l : pystr) i c :
  lex m l !! i = Some (Keep c) → l !! i = Some c.
Proof.
  revert m i. induction l as [|ch l IH]; intros m i; [done |].
  destruct m as [|quote|quote]; cbn [lex].
  - destruct (bool_decide (ch = DASH) && bool_decide (head l = Some DASH)); [done |].
    case_bool_decide; destruct i as [|i]; simpl; try done; try apply IH.
    by intros [= ->].
  - repeat case_bool_decide; destruct i as [|i]; simpl; try done; apply IH.
  - destruct i as [|i]; simpl; [done | apply IH].
Qed.

(** Every character is marked until a comment marker is met in NORMAL
    state; what is left unmarked is that marker and what follows it. *)
Lemma lex_scanned m (l : pystr) :
  (length (lex m l) ≤ length l)%nat
  ∧ (drop (length (lex m l)) l = []
     ∨ ∃ c, drop (length (lex m l)) l = DASH :: DASH :: c).
Proof.
  revert m. induction l as [|ch l IH]; intros m; [by split; [| left] |].
  destruct m as [|quote|quote]; cbn [lex].
  - destruct (bool_decide (ch = DASH) && bool_decide (head l = Some DASH)) eqn:Hc.
    + apply andb_prop in Hc as [Hd Hh].
      apply bool_decide_eq_true in Hd as ->.
      apply bool_decide_eq_true in Hh. apply head_Some in Hh as [c ->].
      simpl. split; [lia | right; eauto].
    + clear Hc. case_bool_decide; simpl.
      * destruct (IH (InStr ch)) as [? ?]. split; [lia | done].
      * destruct (IH Normal) as [? ?]. split; [lia | done].
  - case_bool_decide; [| case_bool_decide]; simpl.
    + destruct (IH (Esc quote)) as [? ?]. split; [lia | done].
    + destruct (IH Normal) as [? ?]. split; [lia | done].
    + destruct (IH (InStr quote)) as [? ?]. split; [lia | done].
  - simpl. destruct (IH (InStr quote)) as [? ?]. split; [lia | done].
Qed.

(** The stripper writes one character for every mark but the escaped
    ones. *)
Lemma render_length (ms : list mark) :
  (length (render ms) + length (filter (λ m, m = Escaped) ms) = length ms)%nat.
Proof.
  induction ms as [|m ms IH]; [done |].
  rewrite render_cons, length_app, filter_cons.
  destruct (decide (m = Escaped)) as [->|Hm]; simpl; [lia |].
  destruct m; simpl; [lia.. | done].
Qed.

Lemma render_aligned_length (ms : list mark) :
  length (render_aligned ms) = length ms.
Proof. unfold render_aligned. by rewrite length_fmap. Qed.

(** An escaped mark is the character after a backslash read inside a
    string. *)
Lemma lex_escaped_after_backslash m (l : pystr) i :
  lex m l !! i = Some Escaped →
  match i with
  | O => ∃ quote, m = Esc quote
  | S j => l !! j = Some BACKSLASH
  end.
Proof.
  revert m i. induction l as [|ch l IH]; intros m i; [done |].
  destruct m as [|quote|quote]; cbn [lex].
  - destruct (bool_decide (ch = DASH) && bool_decide (head l = Some DASH)); [done |].
    case_bool_decide; (destruct i as [|i]; simpl; [done |]);
      intros Hi; apply IH in Hi; destruct i as [|i]; try done;
      by destruct Hi.
  - case_bool_decide as Hbs; [| case_bool_decide];
      (destruct i as [|i]; simpl; [done |]);
      intros Hi; apply IH in Hi; destruct i as [|i]; try done;
      destruct Hi; by simplify_eq/=.
  - destruct i as [|i]; simpl; [eauto |].
    intros Hi; apply IH in Hi; destruct i as [|i]; try done. by destruct Hi.
Qed.

Lemma render_app ms1 ms2 : render (ms1 ++ ms2) = render ms1 ++ render ms2.
Proof. unfold render. apply bind_app. Qed.

Lemma head_app_not_dash (pre rest : pystr) :
  head rest ≠ Some DASH →
  bool_decide (head (pre ++ rest) = Some DASH)
  = bool_decide (head pre = Some DASH).
Proof.
  intros Hrest. destruct pre as [|c pre]; [| done].
  simpl. by rewrite !bool_decide_eq_false_2.
Qed.

(** The automaton can be run on a prefix and resumed, as long as the cut
    does not fall inside a comment marker. *)
Lemma lex_app m m' (pre rest : pystr) :
  lex_mode m pre = Some m' → head rest ≠ Some DASH →
  lex m (pre ++ rest) = lex m pre ++ lex m' rest.
Proof.
  intros Hmode Hrest. revert m Hmode.
  induction pre as [|ch pre IH]; intros m Hmode.
  - simpl in Hmode. by injection Hmode as ->.
  - destruct m as [|quote|quote]; cbn [lex lex_mode app] in *.
    + rewrite head_app_not_dash by done.
      destruct (bool_decide (ch = DASH) && bool_decide (head pre = Some DASH));
        [done |].
      case_bool_decide; simpl; f_equal; by apply IH.
    + repeat case_bool_decide; simpl; f_equal; by apply IH.
    + simpl; f_equal; by apply IH.
Qed.

(** Whatever follows a comment marker met in NORMAL state is not read. *)
Lemma lex_comment m (pre c : pystr) :
  lex_mode m pre = Some Normal →
  lex m (pre ++ DASH :: DASH :: c) = lex m (pre ++ [DASH; DASH]).
Proof.
  revert m. induction pre as [|ch pre IH]; intros m Hmode.
  - simpl in Hmode. by injection Hmode as ->.
  - assert (head (pre ++ DASH :: DASH :: c) = head (pre ++ [DASH; DASH])) as Hhead
      by (by destruct pre).
    destruct m as [|quote|quote]; cbn [lex lex_mode app] in *.
    + rewrite Hhead.
      destruct (bool_decide (ch = DASH)
                && bool_decide (head (pre ++ [DASH; DASH]) = Some DASH)); [done |].
      destruct (bool_decide (ch = DASH) && bool_decide (head pre = Some DASH));
        [done |].
      case_bool_decide; f_equal; by apply IH.
    + repeat case_bool_decide; f_equal; by apply IH.
    + f_equal; by apply IH.
Qed.

(** A string body followed by its closing quote is blanked, one space for
    each plain character, escape pair and quote, and NORMAL state resumes. *)
Lemma lex_string_body quote (body : pystr) :
  quote ≠ BACKSLASH → string_body quote body →
  ∃ n, (n ≤ length body)%nat
       ∧ (BACKSLASH ∉ body → n = length body)
       ∧ (∀ post, render (lex (InStr quote) (body ++ quote :: post))
                  = replicate (S n) SPACE ++ render (lex Normal post))
       ∧ render (lex (InStr quote) body) = replicate n SPACE.
Proof.
  intros Hquote. induction 1 as [|c s Hq Hbs _ IH|c s _ IH].
  - exists 0%nat. split_and!; [done.. | | done]. intros post. cbn [app lex].
    rewrite bool_decide_eq_false_2 by done.
    by rewrite bool_decide_eq_true_2.
  - destruct IH as (n & Hn & Hplain & Hclosed & Hopen). exists (S n).
    split_and!.
    + simpl. lia.
    + intros [_ ?]%not_elem_of_cons. simpl. f_equal. by apply Hplain.
    + intros post. cbn [app lex].
      rewrite !bool_decide_eq_false_2 by done.
      rewrite render_cons, Hclosed. done.
    + cbn [lex]. rewrite !bool_decide_eq_false_2 by done.
      rewrite render_cons, Hopen. done.
  - destruct IH as (n & Hn & Hplain & Hclosed & Hopen). exists (S n).
    split_and!.
    + simpl. lia.
    + intros [? _]%not_elem_of_cons. done.
    + intros post. cbn [app lex].
      rewrite bool_decide_eq_true_2 by done.
      rewrite !render_cons, Hclosed. done.
    + cbn [lex]. rewrite bool_decide_eq_true_2 by done.
      rewrite !render_cons, Hopen. done.
Qed.

Lemma quote_not_special quote :
  quote ∈ [DQUOTE; SQUOTE] → quote ≠ BACKSLASH ∧ quote ≠ DASH.
Proof.
  intros [->|[->|?%elem_of_nil]%elem_of_cons]%elem_of_cons; done.
Qed.

Lemma not_blank (c : char) : c ≠ SPACE → c ≠ TAB → c ∉ [SPACE; TAB].
Proof. intros ? ?. rewrite !not_elem_of_cons. split_and!; [done.. |]. apply not_elem_of_nil. Qed.

Lemma quote_not_blank quote : quote ∈ [DQUOTE; SQUOTE] → quote ∉ [SPACE; TAB].
Proof.
  intros [->|[->|?%elem_of_nil]%elem_of_cons]%elem_of_cons; [| | done];
    by apply not_blank.
Qed.

Lemma render_no_escape (ms : list mark) :
  Escaped ∉ ms → render ms = render_aligned ms.
Proof.
  induction ms as [|m ms IH]; [done |].
  intros [Hm Hms]%not_elem_of_cons. rewrite render_cons.
  unfold render_aligned. rewrite fmap_cons. fold (render_aligned ms).
  rewrite <- IH by done. by destruct m.
Qed.

Lemma lex_no_backslash (l : pystr) : BACKSLASH ∉ l → Escaped ∉ lex Normal l.
Proof.
  intros Hbs Hin. apply list_elem_of_lookup in Hin as [i Hi].
  apply lex_escaped_after_backslash in Hi. destruct i as [|j].
  - by destruct Hi.
  - apply Hbs. by eapply list_elem_of_lookup_2.
Qed.

(** The line that opens with a quoted string: the string, of [body] and
    its two quotes, becomes spaces. *)
Lemma strip_comments_string (pre body post : pystr) quote :
  lex_mode Normal pre = Some Normal → quote ∈ [DQUOTE; SQUOTE] →
  string_body quote body →
  ∃ n, (n ≤ length body)%nat
       ∧ (BACKSLASH ∉ body → n = length body)
       ∧ _strip_comments (pre ++ quote :: body ++ quote :: post)
         = _strip_comments pre ++ replicate (n + 2) SPACE ++ _strip_comments post.
Proof.
  intros Hpre Hquote Hbody.
  destruct (quote_not_special _ Hquote) as [Hbs Hdash].
  destruct (lex_string_body quote body Hbs Hbody) as (n & Hn & Hplain & Hclosed & _).
  exists n. split_and!; [done.. |].
  rewrite !(proj2 (strip_comments_lex _)).
  rewrite (lex_app Normal Normal) by (done || (simpl; congruence)).
  rewrite render_app. f_equal. cbn [lex].
  assert (bool_decide (quote = DASH) = false) as ->
    by (by apply bool_decide_eq_false_2).
  cbn [andb]. rewrite bool_decide_eq_true_2 by done.
  rewrite render_cons, Hclosed.
  replace (n + 2)%nat with (S (S n)) by lia. done.
Qed.

Lemma lex_comment_dropped m (pre c : pystr) :
  lex_mode m pre = Some Normal → last pre ≠ Some DASH →
  lex m (pre ++ DASH :: DASH :: c) = lex m pre.
Proof.
  revert m. induction pre as [|ch pre IH]; intros m Hmode Hlast.
  - simpl in Hmode. by injection Hmode as ->.
  - assert (last pre ≠ Some DASH) as Hlast'.
    { destruct pre; [done |]. by rewrite last_cons_cons in Hlast. }
    assert (bool_decide (ch = DASH)
            && bool_decide (head (pre ++ DASH :: DASH :: c) = Some DASH)
            = bool_decide (ch = DASH) && bool_decide (head pre = Some DASH))
      as Hcond.
    { destruct pre; [| done]. simpl in Hlast.
      rewrite (bool_decide_eq_false_2 (ch = DASH)) by congruence. done. }
    destruct m as [|quote|quote]; cbn [lex lex_mode app] in *.
    + rewrite Hcond. clear Hcond.
      destruct (bool_decide (ch = DASH) && bool_decide (head pre = Some DASH));
        [done |].
      destruct (bool_decide (ch ∈ [DQUOTE; SQUOTE])); f_equal; by apply IH.
    + repeat case_bool_decide; f_equal; by apply IH.
    + f_equal; by apply IH.
Qed.

(** C2, as the code has it.  The stripper writes what the automaton marks:
    a code character is kept at its own index, a character of a string
    literal becomes one space, except that a backslash inside a string and
    the character after it become one space together, and nothing is
    written from a comment marker on.  So the result is never longer than
    the line, it is column-aligned when the line has no backslash, a quoted
    string without escapes becomes as many spaces as it has characters, the
    text of a comment is dropped, and the character after a backslash in a
    string is not examined. *)
Theorem strip_comments_blanks_strings (l : pystr) :
  _strip_comments l = render (lex Normal l)
  ∧ (length (_strip_comments l) ≤ length l)%nat
  ∧ (∀ i c, lex Normal l !! i = Some (Keep c) → l !! i = Some c)
  ∧ (drop (length (lex Normal l)) l = []
     ∨ ∃ c, drop (length (lex Normal l)) l = DASH :: DASH :: c)
  ∧ (length (_strip_comments l)
     + length (filter (λ m, m = Escaped) (lex Normal l))
     = length (lex Normal l))%nat
  ∧ (∀ i, lex Normal l !! i = Some Escaped →
       ∃ j, i = S j ∧ l !! j = Some BACKSLASH)
  ∧ (BACKSLASH ∉ l →
     _strip_comments l = render_aligned (lex Normal l)
     ∧ length (_strip_comments l) = length (lex Normal l))
  ∧ (∀ pre quote body post,
       l = pre ++ quote :: body ++ quote :: post →
       lex_mode Normal pre = Some Normal → quote ∈ [DQUOTE; SQUOTE] →
       string_body quote body →
       ∃ n, (n ≤ length body)%nat
            ∧ (BACKSLASH ∉ body → n = length body)
            ∧ _strip_comments l
              = _strip_comments pre ++ replicate (n + 2) SPACE
                ++ _strip_comments post)
  ∧ (∀ pre c,
       l = pre ++ DASH :: DASH :: c → lex_mode Normal pre = Some Normal →
       _strip_comments l = _strip_comments (pre ++ [DASH; DASH])
       ∧ (last pre ≠ Some DASH → _strip_comments l = _strip_comments pre))
  ∧ (∀ pre quote c rest,
       l = pre ++ BACKSLASH :: c :: rest →
       lex_mode Normal pre = Some (InStr quote) →
       _strip_comments l
       = _strip_comments pre ++ SPACE :: render (lex (InStr quote) rest)).
Proof.
  pose proof (proj2 (strip_comments_lex l)) as Hlex.
  pose proof (render_length (lex Normal l)) as Hlen. rewrite <- Hlex in Hlen.
  destruct (lex_scanned Normal l) as [Hle Hrest].
  split_and!; try done.
  - lia.
  - apply lex_keep_aligned.
  - intros i Hi. apply lex_escaped_after_backslash in Hi.
    destruct i as [|j]; [by destruct Hi | eauto].
  - intros Hbs. rewrite Hlex.
    rewrite (render_no_escape _ (lex_no_backslash _ Hbs)).
    by rewrite render_aligned_length.
  - intros pre quote body post -> Hpre Hquote Hbody.
    by apply strip_comments_string.
  - intros pre c -> Hpre. rewrite !(proj2 (strip_comments_lex _)). split.
    + by rewrite lex_comment.
    + intros Hlast. by rewrite lex_comment_dropped.
  - intros pre quote c rest -> Hpre. rewrite !(proj2 (strip_comments_lex _)).
    rewrite (lex_app Normal (InStr quote)) by done.
    rewrite render_app. by f_equal.
Qed.

(** C2, as stated, fails: on the line ['\'' end] the string of four
    characters becomes three spaces, and the result is one character
    shorter than the line, which has no comment. *)
Lemma strip_comments_not_same_length :
  _strip_comments (lit "'\'' end") = lit "    end"
  ∧ length (_strip_comments (lit "'\'' end")) ≠ length (lit "'\'' end").
Proof. split; [by vm_compute | by vm_compute]. Qed.

(** ** Searching a line *)

Lemma startswith_prefix (s t : pystr) :
  startswith s t = true ↔ ∃ b, s = t ++ b.
Proof.
  revert s. induction t as [|c t IH]; intros s; simpl.
  - split; [eauto | done].
  - destruct s as [|a s].
    + split; [done | by intros [b ?]].
    + rewrite andb_true_iff, bool_decide_eq_true, IH. split.
      * intros [-> [b ->]]. eauto.
      * intros [b [= -> ->]]. eauto.
Qed.

Lemma occurs_at_0 (s t : pystr) : occurs_at s t 0 ↔ startswith s t = true.
Proof.
  rewrite startswith_prefix. unfold occurs_at. split.
  - intros (a & b & -> & Ha). destruct a; [eauto | done].
  - intros [b ->]. by exists [], b.
Qed.

Lemma occurs_at_S (c : char) (s t : pystr) k :
  occurs_at (c :: s) t (S k) ↔ occurs_at s t k.
Proof.
  unfold occurs_at. split.
  - intros (a & b & Hs & Ha). destruct a as [|c' a]; [done |].
    injection Hs as -> ->. injection Ha as Ha. eauto.
  - intros (a & b & -> & Ha). exists (c :: a), b. by rewrite <- Ha.
Qed.

Lemma occurs_at_nil (t : pystr) k : ¬ occurs_at [] t (S k).
Proof. intros (a & b & Hs & Ha). by destruct a. Qed.

Lemma find_from_index (s t : pystr) i :
  find_from i s t =
  match find_index s t with Some k => i + Z.of_nat k | None => -1 end.
Proof.
  revert i. induction s as [|c s IH]; intros i; cbn [find_from find_index];
    destruct (startswith _ t); try done; try lia.
  rewrite IH. destruct (find_index s t); simpl; [lia | done].
Qed.

Lemma find_index_spec (s t : pystr) :
  match find_index s t with
  | Some k => first_occurrence s t k
  | None => ∀ k, ¬ occurs_at s t k
  end.
Proof.
  induction s as [|c s IH]; cbn [find_index].
  - destruct (startswith [] t) eqn:Hst.
    + split; [by apply occurs_at_0 | lia].
    + intros [|k] Hk; [apply occurs_at_0 in Hk; congruence |].
      by apply occurs_at_nil in Hk.
  - destruct (startswith (c :: s) t) eqn:Hst.
    + split; [by apply occurs_at_0 | lia].
    + destruct (find_index s t) as [k|]; simpl.
      * destruct IH as [Hk Hmin]. split; [by apply occurs_at_S |].
        intros [|j] Hj Hocc; [apply occurs_at_0 in Hocc; congruence |].
        apply occurs_at_S in Hocc. apply (Hmin j); [lia | done].
      * intros [|k] Hk; [apply occurs_at_0 in Hk; congruence |].
        apply occurs_at_S in Hk. by apply IH in Hk.
Qed.

(** [_find_column] is the 1-based column of the first occurrence of the
    token in the line, when it occurs there, and 1 otherwise. *)
Lemma find_column_first_occurrence (s t : pystr) :
  (∃ k, first_occurrence s t k ∧ _find_column s t = Z.of_nat k + 1)
  ∨ ((∀ k, ¬ occurs_at s t k) ∧ _find_column s t = 1).
Proof.
  unfold _find_column, find. rewrite find_from_index.
  pose proof (find_index_spec s t) as Hspec.
  destruct (find_index s t) as [k|].
  - left. exists k. split; [done |].
    rewrite bool_decide_eq_true_2 by lia. lia.
  - right. split; [done |]. by rewrite bool_decide_eq_false_2 by lia.
Qed.

(** ** Tokens *)

Section Tokens.

Variable isalpha : char → bool.

(** The tokenizer yields pieces of the line. *)
Lemma tokenize_step_infix (l p word : pystr) (yielded : list pystr) :
  (∃ a, p = a ++ word) →
  Forall (λ t, t ≠ [] ∧ ∃ a b, p = a ++ t ++ b) yielded →
  (∃ a, p ++ l = a ++ (foldl (tokenize_step isalpha) (word, yielded) l).1)
  ∧ Forall (λ t, t ≠ [] ∧ ∃ a b, p ++ l = a ++ t ++ b)
           (foldl (tokenize_step isalpha) (word, yielded) l).2.
Proof.
  revert p word yielded. induction l as [|ch l IH]; intros p word yielded Hw Hy.
  - rewrite app_nil_r. done.
  - assert (Forall (λ t, t ≠ [] ∧ ∃ a b, p ++ [ch] = a ++ t ++ b) yielded) as Hy'.
    { eapply Forall_impl; [done |]. intros t [Ht (a & b & ->)]. split; [done |].
      exists a, (b ++ [ch]). by rewrite <- !app_assoc. }
    destruct Hw as [a ->].
    replace ((a ++ word) ++ ch :: l) with (((a ++ word) ++ [ch]) ++ l)
      by (by rewrite <- !app_assoc).
    cbn [foldl tokenize_step].
    destruct (isalpha ch || bool_decide (ch = UNDERSCORE)).
    + apply IH; [| done]. exists a. by rewrite <- app_assoc.
    + case_bool_decide as Hne.
      * apply IH; [by exists ((a ++ word) ++ [ch]); rewrite app_nil_r |].
        apply Forall_app. split; [done |]. constructor; [| done].
        split; [done |]. exists a, [ch]. by rewrite <- app_assoc.
      * apply IH; [| done]. exists (a ++ [ch]).
        assert (word = []) as -> by (by destruct word).
        by rewrite !app_nil_r.
Qed.

Lemma tokenize_infix (l t : pystr) :
  t ∈ _tokenize isalpha l → t ≠ [] ∧ ∃ a b, l = a ++ t ++ b.
Proof.
  unfold _tokenize.
  destruct (tokenize_step_infix l [] [] []) as [Hw Hy];
    [by exists [] | constructor |].
  destruct (foldl (tokenize_step isalpha) ([], []) l) as [word yielded].
  simpl in *. case_bool_decide as Hne.
  - intros [Hin|Hin]%elem_of_app.
    + by eapply Forall_forall in Hy.
    + apply list_elem_of_singleton in Hin as ->. split; [done |].
      destruct Hw as [a ->]. exists a, []. by rewrite app_nil_r.
  - intros Hin. by eapply Forall_forall in Hy.
Qed.

End Tokens.

(** A run of characters of the stripped line that has no space in it is a
    run of the raw line. *)
Lemma render_prefix_raw (t b raw : pystr) :
  SPACE ∉ t → render (lex Normal raw) = t ++ b → ∃ r, raw = t ++ r.
Proof.
  revert raw. induction t as [|c t IH]; intros raw Hsp Hr; [by exists raw |].
  apply not_elem_of_cons in Hsp as [Hc Ht].
  destruct raw as [|ch raw]; [done |]. cbn [lex] in Hr.
  destruct (bool_decide (ch = DASH) && bool_decide (head raw = Some DASH));
    [done |].
  destruct (bool_decide (ch ∈ [DQUOTE; SQUOTE])); rewrite render_cons in Hr;
    simpl in Hr; injection Hr as Hch Hr; [done |]. subst ch.
  destruct (IH raw Ht Hr) as [r ->]. by exists r.
Qed.

Lemma render_infix_raw (t : pystr) m (raw a b : pystr) :
  t ≠ [] → SPACE ∉ t → render (lex m raw) = a ++ t ++ b →
  ∃ a' b', raw = a' ++ t ++ b'.
Proof.
  intros Hne Hsp. revert m a. induction raw as [|ch raw IH]; intros m a Hr.
  { simpl in Hr. destruct a, t; done. }
  assert (∀ m', SPACE :: render (lex m' raw) = a ++ t ++ b →
                ∃ a' b', ch :: raw = a' ++ t ++ b') as Hblank.
  { intros m' Hr'. destruct a as [|x a].
    - destruct t as [|c t]; [done |]. injection Hr' as <- _.
      destruct Hsp. left.
    - injection Hr' as _ Hr'. destruct (IH _ _ Hr') as (a' & b' & ->).
      by exists (ch :: a'), b'. }
  destruct m as [|quote|quote]; cbn [lex] in Hr.
  - destruct (bool_decide (ch = DASH) && bool_decide (head raw = Some DASH)) eqn:Hc.
    { destruct a, t; done. }
    destruct (bool_decide (ch ∈ [DQUOTE; SQUOTE])) eqn:Hq;
      rewrite render_cons in Hr; [by apply (Hblank _ Hr) |].
    destruct a as [|x a].
    + destruct (render_prefix_raw t b (ch :: raw) Hsp) as [r ->].
      { cbn [lex]. rewrite Hc, Hq. by rewrite render_cons. }
      by exists [], r.
    + injection Hr as _ Hr. destruct (IH _ _ Hr) as (a' & b' & ->).
      by exists (ch :: a'), b'.
  - repeat case_bool_decide; rewrite render_cons in Hr; by apply (Hblank _ Hr).
  - rewrite render_cons in Hr. destruct (IH _ _ Hr) as (a' & b' & ->).
    by exists (ch :: a'), b'.
Qed.

(** ** The keyword tables *)

Lemma block_endings_cases (t : pystr) :
  t ∈ _BLOCK_ENDINGS ↔ t = lit "end" ∨ t = lit "until".
Proof. unfold _BLOCK_ENDINGS. by rewrite elem_of_union, !elem_of_singleton. Qed.

Lemma block_pairs_closers (opener closer : pystr) :
  _BLOCK_PAIRS !! opener = Some closer →
  closer ∈ _BLOCK_ENDINGS ∧ _BLOCK_PAIRS !! closer = None.
Proof.
  assert (map_Forall (λ _ c, c ∈ _BLOCK_ENDINGS ∧ _BLOCK_PAIRS !! c = None)
                     _BLOCK_PAIRS) as Hall.
  { apply (bool_decide_unpack _). by vm_compute. }
  intros Hlook. by apply (Hall opener closer).
Qed.

Lemma block_endings_not_openers (t : pystr) :
  t ∈ _BLOCK_ENDINGS → _BLOCK_PAIRS !! t = None.
Proof. intros [-> | ->]%block_endings_cases; by vm_compute. Qed.

Lemma block_endings_plain (t : pystr) :
  t ∈ _BLOCK_ENDINGS → t ≠ [] ∧ SPACE ∉ t.
Proof.
  intros [-> | ->]%block_endings_cases; (split; [done |]);
    apply (bool_decide_unpack _); by vm_compute.
Qed.

(** ** The block-balance checker *)

Section BlockBalance.

Variable isalpha : char → bool.

Lemma block_token_opener idx raw stack yielded opener closer :
  _BLOCK_PAIRS !! opener = Some closer →
  block_token idx raw (stack, yielded) opener
  = (stack ++ [(closer, idx)], yielded).
Proof. intros Hopen. unfold block_token. by rewrite Hopen. Qed.

Lemma block_token_word idx raw st t :
  ¬ keyword t → block_token idx raw st t = st.
Proof.
  intros Hkw. destruct st as [stack yielded]. unfold block_token.
  destruct (_BLOCK_PAIRS !! t) eqn:Hopen.
  - destruct Hkw. left. by rewrite Hopen.
  - rewrite bool_decide_eq_false_2; [done |]. intros Hin. apply Hkw. by right.
Qed.

Lemma block_token_unexpected idx raw yielded token :
  token ∈ _BLOCK_ENDINGS →
  block_token idx raw ([], yielded) token
  = ([], yielded ++ [unexpected_issue idx (_find_column raw token) token]).
Proof.
  intros Hend. unfold block_token.
  rewrite block_endings_not_openers by done.
  by rewrite bool_decide_eq_true_2.
Qed.

Lemma block_token_mismatch idx raw below expected start_line yielded token :
  token ∈ _BLOCK_ENDINGS → expected ≠ token →
  block_token idx raw (below ++ [(expected, start_line)], yielded) token
  = (below ++ [(expected, start_line)],
     yielded ++ [expected_issue idx (_find_column raw token) expected start_line]).
Proof.
  intros Hend Hne. unfold block_token.
  rewrite block_endings_not_openers by done.
  rewrite bool_decide_eq_true_2 by done. rewrite last_snoc.
  by rewrite bool_decide_eq_true_2.
Qed.

Lemma block_token_match idx raw below start_line yielded token :
  token ∈ _BLOCK_ENDINGS →
  block_token idx raw (below ++ [(token, start_line)], yielded) token
  = (below, yielded).
Proof.
  intros Hend. unfold block_token.
  rewrite block_endings_not_openers by done.
  rewrite bool_decide_eq_true_2 by done. rewrite last_snoc.
  rewrite bool_decide_eq_false_2 by (intros Hne; by apply Hne).
  by rewrite removelast_last.
Qed.

(** A closing keyword read from the stripped line stands in the raw line. *)
Lemma closing_token_occurs raw token :
  token ∈ _BLOCK_ENDINGS →
  token ∈ _tokenize isalpha (_strip_comments raw) →
  ∃ k, first_occurrence raw token k
       ∧ _find_column raw token = Z.of_nat k + 1.
Proof.
  intros Hend Htok.
  destruct (block_endings_plain token Hend) as [Hne Hsp].
  apply tokenize_infix in Htok as [_ (a & b & Hab)].
  rewrite (proj2 (strip_comments_lex raw)) in Hab.
  destruct (render_infix_raw token Normal raw a b Hne Hsp Hab) as (a' & b' & Hraw).
  destruct (find_column_first_occurrence raw token) as [?|[Hnone _]]; [done |].
  destruct (Hnone (length a')). by exists a', b'.
Qed.

(** The loop body on a closing keyword of the line, in each of the three
    states of the stack. *)
Lemma block_token_closing
    (idx : Z) (raw_line token : pystr) (yielded : list Issue) :
  token ∈ _BLOCK_ENDINGS →
  token ∈ _tokenize isalpha (_strip_comments raw_line) →
  ∃ k, first_occurrence raw_line token k
    ∧ block_token idx raw_line ([], yielded) token
      = ([], yielded ++ [mkIssue idx (Z.of_nat k + 1)
                           (lit "Unexpected '" ++ token ++ lit "'") SYNTAX])
    ∧ (∀ below expected start_line, expected ≠ token →
         block_token idx raw_line (below ++ [(expected, start_line)], yielded) token
         = (below ++ [(expected, start_line)],
            yielded ++ [mkIssue idx (Z.of_nat k + 1)
                          (lit "Expected '" ++ expected
                           ++ lit "' opened at line " ++ str_of_int start_line)
                          SYNTAX]))
    ∧ (∀ below start_line,
         block_token idx raw_line (below ++ [(token, start_line)], yielded) token
         = (below, yielded)).
Proof.
  intros Hend Htok.
  destruct (closing_token_occurs raw_line token Hend Htok) as (k & Hfirst & Hcol).
  exists k. split_and!; [done | | |].
  - rewrite block_token_unexpected by done. by rewrite Hcol.
  - intros below expected start_line Hne.
    rewrite block_token_mismatch by done. by rewrite Hcol.
  - intros below start_line. by apply block_token_match.
Qed.

(** The two nested loops read the token stream in order. *)
Lemma foldl_bind {A B C} (f : A → B → A) (g : C → list B) (a : A) (l : list C) :
  foldl f a (l ≫= g) = foldl (λ a x, foldl f a (g x)) a l.
Proof.
  revert a. induction l as [|x l IH]; intros a; [done |].
  by rewrite bind_cons, foldl_app, IH.
Qed.

Lemma block_scan_stream (lines : list pystr) :
  block_scan isalpha lines
  = foldl block_item ([], []) (token_stream isalpha lines).
Proof.
  unfold block_scan, token_stream. rewrite foldl_bind.
  generalize (@nil frame, @nil Issue). generalize (enumerate 1 lines).
  intros items. induction items as [|[idx raw] items IH]; intros st; [done |].
  cbn [foldl]. rewrite <- IH. f_equal.
  unfold block_line. by rewrite foldl_fmap.
Qed.

Lemma token_stream_tokens (lines : list pystr) :
  (λ it, it.2) <$> token_stream isalpha lines = tokens_read isalpha lines.
Proof.
  unfold token_stream, tokens_read. generalize 1.
  induction lines as [|raw lines IH]; intros start; [done |].
  cbn [enumerate]. rewrite !bind_cons, fmap_app, IH. f_equal.
  rewrite <- list_fmap_compose. apply list_fmap_id.
Qed.

(** A balanced run of tokens leaves the stack and the issues as they
    were. *)
Lemma balanced_run (toks : list pystr) :
  balanced toks →
  ∀ (stream : list (Z * pystr * pystr)) st,
    (λ it, it.2) <$> stream = toks → foldl block_item st stream = st.
Proof.
  induction 1 as [|t ts Hword _ IH|opener closer inner rest Hopen _ IHin _ IHrest];
    intros stream st Hstream.
  - by apply fmap_nil_inv in Hstream as ->.
  - apply fmap_cons_inv in Hstream as ([[idx raw] t'] & stream' & -> & -> & ->).
    cbn [foldl block_item]. rewrite block_token_word by done. by apply IH.
  - apply fmap_cons_inv in Hstream as ([[idx raw] t'] & stream' & -> & Hrest & ->).
    symmetry in Hrest.
    apply fmap_app_inv in Hrest as (s_in & s_out & -> & Hout & ->).
    symmetry in Hout.
    apply fmap_cons_inv in Hout as ([[idx' raw'] c'] & s_rest & -> & -> & ->).
    destruct st as [stack yielded]. cbn [foldl block_item]. simpl in Hopen.
    rewrite (block_token_opener _ _ _ _ _ _ Hopen).
    rewrite foldl_app, (IHin s_in) by done. cbn [foldl block_item].
    rewrite block_token_match by (by apply block_pairs_closers in Hopen as [? _]).
    by apply IHrest.
Qed.

(** What the checker yields: scan issues, then one issue for each frame
    left, from the bottom of the stack up. *)
Lemma check_block_balance_scan (lines : list pystr) :
  _check_block_balance isalpha lines
  = (block_scan isalpha lines).2
    ++ ((λ f, unclosed_issue f.2 f.1) <$> (block_scan isalpha lines).1).
Proof.
  unfold _check_block_balance. destruct (block_scan isalpha lines) as [stack y].
  simpl. f_equal. apply list_fmap_ext. by intros _ [expected n] _.
Qed.

Lemma block_token_scan_issues idx raw st t :
  Forall scan_issue st.2 → Forall scan_issue (block_token idx raw st t).2.
Proof.
  destruct st as [stack yielded]. simpl. intros Hy. unfold block_token.
  destruct (_BLOCK_PAIRS !! t); [done |].
  case_bool_decide; [| done].
  destruct (last stack) as [[expected n]|].
  - case_bool_decide; [| done]. simpl. apply Forall_app. split; [done |].
    constructor; [| done]. right. by exists idx, (_find_column raw t), expected, n.
  - simpl. apply Forall_app. split; [done |].
    constructor; [| done]. left. by exists idx, (_find_column raw t), t.
Qed.

Lemma block_stream_scan_issues (stream : list (Z * pystr * pystr)) st :
  Forall scan_issue st.2 → Forall scan_issue (foldl block_item st stream).2.
Proof.
  revert st. induction stream as [|[[idx raw] t] stream IH]; intros st Hy; [done |].
  cbn [foldl]. apply IH. by apply block_token_scan_issues.
Qed.

Lemma block_scan_issues (lines : list pystr) :
  Forall scan_issue (block_scan isalpha lines).2.
Proof. rewrite block_scan_stream. by apply block_stream_scan_issues. Qed.

Lemma scan_issue_syntax i : scan_issue i → code i = SYNTAX.
Proof. by intros [(? & ? & ? & ->)|(? & ? & ? & ? & ->)]. Qed.

Lemma scan_issue_not_unclosed i : scan_issue i → ¬ reports_unclosed i.
Proof.
  unfold reports_unclosed.
  intros [(? & ? & ? & ->)|(? & ? & ? & ? & ->)] [k Hk];
    vm_compute in Hk; discriminate Hk.
Qed.

Lemma unclosed_issue_reports n expected :
  reports_unclosed (unclosed_issue n expected).
Proof. unfold reports_unclosed. simpl. by eexists. Qed.

Lemma check_block_balance_syntax (lines : list pystr) :
  Forall (λ i, code i = SYNTAX) (_check_block_balance isalpha lines).
Proof.
  rewrite check_block_balance_scan. apply Forall_app. split.
  - eapply Forall_impl; [apply block_scan_issues |]. apply scan_issue_syntax.
  - apply Forall_fmap, Forall_true. done.
Qed.

(** The frames on the stack are in the order of their opening lines. *)
Lemma frames_ok_mono hi hi' (stack : list frame) :
  hi ≤ hi' → frames_ok hi stack → frames_ok hi' stack.
Proof.
  intros Hle [Hall Hsorted]. split; [| done].
  eapply Forall_impl; [done |]. simpl. intros f [? ?]. split; [done | lia].
Qed.

Lemma block_token_frames_ok idx raw st t :
  1 ≤ idx → frames_ok idx st.1 → frames_ok idx (block_token idx raw st t).1.
Proof.
  destruct st as [stack yielded]. simpl. intros Hidx [Hall Hsorted].
  unfold block_token. destruct (_BLOCK_PAIRS !! t) as [closer|] eqn:Hopen.
  - simpl. split.
    + apply Forall_app. split; [done |]. constructor; [| done]. simpl.
      split; [by apply block_pairs_closers in Hopen as [? _] | lia].
    + apply StronglySorted_app_2; [| done | repeat constructor].
      intros f g Hf ->%list_elem_of_singleton. simpl.
      eapply Forall_forall in Hall; [| done]. lia.
  - case_bool_decide; [| done].
    destruct (last stack) as [[expected n]|] eqn:Hlast; [| done].
    case_bool_decide; [done |]. simpl.
    apply last_Some in Hlast as [below ->]. rewrite removelast_last.
    split.
    + by apply Forall_app in Hall as [? _].
    + by apply StronglySorted_app_1_l in Hsorted.
Qed.

Lemma block_line_frames_ok idx raw st :
  1 ≤ idx → frames_ok (idx - 1) st.1 →
  frames_ok idx (block_line isalpha st (idx, raw)).1.
Proof.
  intros Hidx Hok. unfold block_line.
  apply (frames_ok_mono _ idx) in Hok; [| lia].
  revert st Hok.
  induction (_tokenize isalpha (_strip_comments raw)) as [|t ts IH];
    intros st Hok; [done |].
  cbn [foldl]. apply IH. by apply block_token_frames_ok.
Qed.

Lemma block_lines_frames_ok (lines : list pystr) start st :
  1 ≤ start → frames_ok (start - 1) st.1 →
  frames_ok (start - 1 + len lines)
            (foldl (block_line isalpha) st (enumerate start lines)).1.
Proof.
  revert start st. induction lines as [|raw lines IH]; intros start st Hs Hok.
  - unfold len. simpl. by rewrite Z.add_0_r.
  - cbn [enumerate foldl].
    replace (start - 1 + len (raw :: lines)) with (start + 1 - 1 + len lines)
      by (unfold len; simpl; lia).
    apply IH; [lia |]. replace (start + 1 - 1) with start by lia.
    by apply block_line_frames_ok.
Qed.

Lemma block_scan_frames_ok (lines : list pystr) :
  frames_ok (len lines) (block_scan isalpha lines).1.
Proof.
  unfold block_scan.
  replace (len lines) with (1 - 1 + len lines) by lia.
  apply block_lines_frames_ok; [done |]. split; constructor.
Qed.

Lemma words_run (stream : list (Z * pystr * pystr)) st :
  Forall (λ it, ¬ keyword it.2) stream → foldl block_item st stream = st.
Proof.
  intros Hwords. revert st.
  induction Hwords as [|[[idx raw] t] stream Ht _ IH]; intros st; [done |].
  cbn [foldl block_item]. rewrite block_token_word by done. apply IH.
Qed.

Lemma token_stream_line (lines : list pystr) idx raw t :
  (idx, raw, t) ∈ token_stream isalpha lines →
  1 ≤ idx ∧ lines !! Z.to_nat (idx - 1) = Some raw
  ∧ t ∈ _tokenize isalpha (_strip_comments raw).
Proof.
  unfold token_stream. intros ([idx' raw'] & Hin & Hit)%list_elem_of_bind.
  apply list_elem_of_fmap in Hin as (t' & [= -> -> ->] & Ht).
  apply elem_of_enumerate in Hit as (k & Hk & ->).
  split_and!; [lia | | done].
  by replace (Z.to_nat (1 + Z.of_nat k - 1)) with k by lia.
Qed.

(** The issues yielded so far are only ever appended to. *)
Lemma block_token_yielded idx raw (stack : list frame) (yielded : list Issue) t :
  block_token idx raw (stack, yielded) t
  = ((block_token idx raw (stack, []) t).1,
     yielded ++ (block_token idx raw (stack, []) t).2).
Proof.
  unfold block_token. destruct (_BLOCK_PAIRS !! t).
  { simpl. by rewrite app_nil_r. }
  case_bool_decide; [| simpl; by rewrite app_nil_r].
  destruct (last stack) as [[expected n]|]; [| done].
  case_bool_decide; [done |]. simpl. by rewrite app_nil_r.
Qed.

Lemma block_items_yielded (stream : list (Z * pystr * pystr))
    (stack : list frame) (yielded : list Issue) :
  foldl block_item (stack, yielded) stream
  = ((foldl block_item (stack, []) stream).1,
     yielded ++ (foldl block_item (stack, []) stream).2).
Proof.
  revert stack yielded.
  induction stream as [|[[idx raw] t] stream IH]; intros stack yielded.
  { simpl. by rewrite app_nil_r. }
  cbn [foldl block_item]. rewrite block_token_yielded.
  destruct (block_token idx raw (stack, []) t) as [stack1 yielded1].
  cbn [fst snd]. rewrite IH, (IH stack1 yielded1). cbn [fst snd].
  by rewrite app_assoc.
Qed.

(** The checker at a point of its token stream: what it has yielded, then
    what it yields from there on. *)
Lemma check_block_balance_rest (lines : list pystr)
    (before after : list (Z * pystr * pystr))
    (stack : list frame) (yielded : list Issue) :
  token_stream isalpha lines = before ++ after →
  foldl block_item ([], []) before = (stack, yielded) →
  _check_block_balance isalpha lines = yielded ++ block_rest stack after.
Proof.
  intros Hstream Hbefore. unfold _check_block_balance, block_rest.
  rewrite block_scan_stream, Hstream, foldl_app, Hbefore, block_items_yielded.
  destruct (foldl block_item (stack, []) after) as [stack' yielded'].
  cbn [fst snd]. by rewrite app_assoc.
Qed.

(** C3. When the checker reads a closing keyword, after the tokens before
    it left the stack [stack] and the issues [yielded], the keyword stands
    in its raw line, and: with the stack empty the checker yields
    "Unexpected", at the column of the first occurrence of the keyword in
    the raw line, and the stack stays empty; with a top frame that expects
    another keyword it yields "Expected ... opened at line N" at that column
    and the frame stays on the stack; with a top frame that expects the
    keyword it pops the frame and yields nothing.  In each case the result
    of the check is what was yielded before, the issue of the case, and
    what the checker yields from the stack of the case on the tokens that
    follow. *)
Theorem closing_keyword_checked
    (lines : list pystr) (before after : list (Z * pystr * pystr))
    (idx : Z) (raw_line token : pystr) :
  token_stream isalpha lines = before ++ (idx, raw_line, token) :: after →
  token ∈ _BLOCK_ENDINGS →
  ∃ k stack yielded,
    lines !! Z.to_nat (idx - 1) = Some raw_line
    ∧ first_occurrence raw_line token k
    ∧ foldl block_item ([], []) before = (stack, yielded)
    ∧ (stack = [] →
       let issue := mkIssue idx (Z.of_nat k + 1)
                      (lit "Unexpected '" ++ token ++ lit "'") SYNTAX in
       foldl block_item ([], []) (before ++ [(idx, raw_line, token)])
       = ([], yielded ++ [issue])
       ∧ _check_block_balance isalpha lines
         = yielded ++ [issue] ++ block_rest [] after)
    ∧ (∀ below expected start_line,
         stack = below ++ [(expected, start_line)] → expected ≠ token →
         let issue := mkIssue idx (Z.of_nat k + 1)
                        (lit "Expected '" ++ expected
                         ++ lit "' opened at line " ++ str_of_int start_line)
                        SYNTAX in
         foldl block_item ([], []) (before ++ [(idx, raw_line, token)])
         = (below ++ [(expected, start_line)], yielded ++ [issue])
         ∧ _check_block_balance isalpha lines
           = yielded ++ [issue]
             ++ block_rest (below ++ [(expected, start_line)]) after)
    ∧ (∀ below start_line,
         stack = below ++ [(token, start_line)] →
         foldl block_item ([], []) (before ++ [(idx, raw_line, token)])
         = (below, yielded)
         ∧ _check_block_balance isalpha lines
           = yielded ++ block_rest below after).
Proof.
  intros Hstream Hend.
  assert ((idx, raw_line, token) ∈ token_stream isalpha lines) as Hin.
  { rewrite Hstream. apply elem_of_app. right. left. }
  apply token_stream_line in Hin as (_ & Hline & Htok).
  destruct (closing_token_occurs raw_line token Hend Htok) as (k & Hfirst & Hcol).
  destruct (foldl block_item ([], []) before) as [stack yielded] eqn:Hbefore.
  exists k, stack, yielded. split_and!; [done.. | | |].
  - intros -> issue. subst issue. rewrite <- Hcol.
    assert (foldl block_item ([], []) (before ++ [(idx, raw_line, token)])
            = ([], yielded ++ [unexpected_issue idx (_find_column raw_line token)
                                 token])) as Hstep.
    { rewrite foldl_app, Hbefore. cbn [foldl block_item].
      by apply block_token_unexpected. }
    split; [exact Hstep |].
    rewrite (check_block_balance_rest lines
               (before ++ [(idx, raw_line, token)]) after _ _
               ltac:(by rewrite <- app_assoc) Hstep).
    by rewrite <- app_assoc.
  - intros below expected start_line -> Hne issue. subst issue. rewrite <- Hcol.
    assert (foldl block_item ([], []) (before ++ [(idx, raw_line, token)])
            = (below ++ [(expected, start_line)],
               yielded ++ [expected_issue idx (_find_column raw_line token)
                             expected start_line])) as Hstep.
    { rewrite foldl_app, Hbefore. cbn [foldl block_item].
      by apply block_token_mismatch. }
    split; [exact Hstep |].
    rewrite (check_block_balance_rest lines
               (before ++ [(idx, raw_line, token)]) after _ _
               ltac:(by rewrite <- app_assoc) Hstep).
    by rewrite <- app_assoc.
  - intros below start_line ->.
    assert (foldl block_item ([], []) (before ++ [(idx, raw_line, token)])
            = (below, yielded)) as Hstep.
    { rewrite foldl_app, Hbefore. cbn [foldl block_item].
      by apply block_token_match. }
    split; [exact Hstep |].
    by rewrite (check_block_balance_rest lines
                  (before ++ [(idx, raw_line, token)]) after _ _
                  ltac:(by rewrite <- app_assoc) Hstep).
Qed.

End BlockBalance.

(** ** The other checks never report a block *)

Lemma check_indentation_rules (lines : list pystr) ps isz :
  _check_indentation lines ps isz =
  if decide (Exists (λ it : Z * pystr,
                       isz = 0 ∧ lstrip [SPACE; TAB] it.2 ≠ []
                       ∧ leading_run it.2 ≠ [] ∧ TAB ∉ leading_run it.2)
                    (enumerate 1 lines))
  then Raises ZeroDivisionError
  else Returns ('(idx, l) ← enumerate 1 lines; indentation_rules ps isz idx l).
Proof.
  unfold _check_indentation. apply for_yield_cases.
  intros [idx l]. apply indentation_body_rules.
Qed.

Lemma check_indentation_returns (lines : list pystr) ps isz :
  isz ≠ 0 →
  _check_indentation lines ps isz
  = Returns ('(idx, l) ← enumerate 1 lines; indentation_rules ps isz idx l).
Proof.
  intros Hz. rewrite check_indentation_rules.
  rewrite decide_False; [done |].
  intros (it & _ & Hzero & _)%Exists_exists. done.
Qed.

Lemma check_indentation_indent (lines : list pystr) ps isz found :
  _check_indentation lines ps isz = Returns found →
  Forall (λ i, code i = INDENT) found.
Proof.
  rewrite check_indentation_rules. case_decide; [done |]. intros [= <-].
  apply Forall_forall. intros i ([idx l] & Hi & _)%list_elem_of_bind.
  unfold indentation_rules in Hi.
  repeat case_decide; try (by apply elem_of_nil in Hi);
    by apply list_elem_of_singleton in Hi as ->.
Qed.

Lemma check_trailing_format (lines : list pystr) :
  Forall (λ i, code i = FORMAT ∧ message i = lit "Trailing whitespace")
         (_check_trailing_whitespace lines).
Proof.
  apply Forall_forall. intros i ([idx l] & Hi & _)%list_elem_of_bind.
  unfold trailing_body in Hi. case_bool_decide; [| by apply elem_of_nil in Hi].
  by apply list_elem_of_singleton in Hi as ->.
Qed.

Lemma final_newline_format source (lines : list pystr) :
  Forall (λ i, code i = FORMAT ∧ message i = lit "Missing final newline")
         (final_newline source lines).
Proof. unfold final_newline. case_match; by repeat constructor. Qed.

Section Orchestration.

Variable isalpha : char → bool.

(** C1. When the tokens read from the lines are balanced, each opening
    keyword closed by its own closing keyword in nested order, the
    block-balance check yields nothing, however deep the nesting, and no
    issue of an analysis of such a source is a SYNTAX issue. *)
Theorem balanced_blocks_no_syntax_issue (lines : list pystr) :
  balanced (tokens_read isalpha lines) →
  _check_block_balance isalpha lines = []
  ∧ ∀ source prefer_spaces indent_size issues,
      splitlines source = lines →
      analyze_source isalpha source prefer_spaces indent_size = Returns issues →
      Forall (λ i, code i ≠ SYNTAX) issues.
Proof.
  intros Hbal.
  assert (_check_block_balance isalpha lines = []) as Hcheck.
  { rewrite check_block_balance_scan, block_scan_stream.
    rewrite (balanced_run _ Hbal) by apply token_stream_tokens. done. }
  split; [done |].
  intros source ps isz issues <- Hrun. unfold analyze_source in Hrun.
  rewrite Hcheck in Hrun.
  destruct (_check_indentation (splitlines source) ps isz) as [found|e] eqn:Hind;
    [| done].
  injection Hrun as <-. rewrite app_nil_r. cbn [app].
  repeat apply Forall_app_2.
  - eapply Forall_impl; [apply final_newline_format |].
    intros i [Hi _]. by rewrite Hi.
  - eapply Forall_impl; [by eapply check_indentation_indent |].
    intros i Hi. simpl in Hi. by rewrite Hi.
  - eapply Forall_impl; [apply check_trailing_format |].
    intros i [Hi _]. by rewrite Hi.
Qed.

(** C4. After the scan every frame left on the stack yields one "Unclosed
    block" issue at its opening line and column 1, after the scan issues and
    in stack order, which is the order of the opening lines; no other issue
    reports an unclosed block.  A source whose only keyword is one opening
    keyword gets exactly that one issue, at the line of the keyword. *)
Theorem unclosed_blocks_reported (lines : list pystr) :
  _check_block_balance isalpha lines
  = (block_scan isalpha lines).2
    ++ ((λ f, mkIssue f.2 1 (lit "Unclosed block expecting '" ++ f.1 ++ lit "'")
                SYNTAX) <$> (block_scan isalpha lines).1)
  ∧ filter reports_unclosed (_check_block_balance isalpha lines)
    = (λ f, mkIssue f.2 1 (lit "Unclosed block expecting '" ++ f.1 ++ lit "'")
              SYNTAX) <$> (block_scan isalpha lines).1
  ∧ frames_ok (len lines) (block_scan isalpha lines).1
  ∧ (∀ before idx raw opener closer after,
       token_stream isalpha lines = before ++ (idx, raw, opener) :: after →
       _BLOCK_PAIRS !! opener = Some closer →
       Forall (λ it, ¬ keyword it.2) before →
       Forall (λ it, ¬ keyword it.2) after →
       lines !! Z.to_nat (idx - 1) = Some raw ∧ 1 ≤ idx
       ∧ _check_block_balance isalpha lines
         = [mkIssue idx 1 (lit "Unclosed block expecting '" ++ closer ++ lit "'")
              SYNTAX]).
Proof.
  split_and!.
  - apply check_block_balance_scan.
  - rewrite check_block_balance_scan, filter_app.
    rewrite filter_none, filter_all; [done | |].
    + apply Forall_fmap, Forall_true. intros f. apply unclosed_issue_reports.
    + eapply Forall_impl; [apply block_scan_issues |].
      apply scan_issue_not_unclosed.
  - apply block_scan_frames_ok.
  - intros before idx raw opener closer after Hstream Hopen Hbefore Hafter.
    assert ((idx, raw, opener) ∈ token_stream isalpha lines) as Hin.
    { rewrite Hstream. apply elem_of_app. right. left. }
    apply token_stream_line in Hin as (Hidx & Hraw & _).
    split_and!; [done.. |].
    rewrite check_block_balance_scan, block_scan_stream, Hstream.
    rewrite !foldl_app, !(words_run before) by done. cbn [foldl block_item].
    rewrite (block_token_opener _ _ _ _ _ _ Hopen).
    by rewrite !(words_run after).
Qed.

(** ** Orchestration *)

Lemma splitlines_go_nonempty (s cur : pystr) :
  s ≠ [] ∨ cur ≠ [] → splitlines_go s cur ≠ [].
Proof.
  revert cur. induction s as [|c s IH]; intros cur Hne; cbn [splitlines_go].
  - destruct Hne as [?|?]; [done |]. by destruct cur.
  - destruct (is_linebreak c); [done |]. apply IH. right. by destruct cur.
Qed.

Lemma splitlines_nonempty (source : pystr) :
  source ≠ [] → ∃ l, last (splitlines source) = Some l.
Proof.
  intros Hne. apply last_is_Some, splitlines_go_nonempty. by left.
Qed.

(** C6. When the analysis returns, its issues contain a "Missing final
    newline" issue exactly when the source is not empty and does not end in
    a newline character: then there is one, at the last line and at the
    column after the end of that line (a source that is not empty always
    has a last line); otherwise there is none. *)
Theorem missing_final_newline
    (source : pystr) (prefer_spaces : bool) (indent_size : Z) :
  indent_size ≠ 0 →
  ∃ issues,
    analyze_source isalpha source prefer_spaces indent_size = Returns issues
    ∧ (source ≠ [] ∧ last source ≠ Some LF →
       ∃ l, last (splitlines source) = Some l
            ∧ filter (λ i, code i = FORMAT
                           ∧ message i = lit "Missing final newline") issues
              = [mkIssue (len (splitlines source)) (len l + 1)
                   (lit "Missing final newline") FORMAT])
    ∧ (source = [] ∨ last source = Some LF →
       filter (λ i, code i = FORMAT
                    ∧ message i = lit "Missing final newline") issues = []).
Proof.
  intros Hz. unfold analyze_source.
  rewrite check_indentation_returns by done. cbn [obind app].
  eexists. split; [done |].
  set (P := λ i, code i = FORMAT ∧ message i = lit "Missing final newline").
  assert (∀ rest,
            rest = ('(idx, l) ← enumerate 1 (splitlines source);
                    indentation_rules prefer_spaces indent_size idx l)
                   ++ _check_trailing_whitespace (splitlines source)
                   ++ _check_block_balance isalpha (splitlines source) →
            filter P rest = []) as Hrest.
  { intros rest ->. apply filter_none. repeat apply Forall_app_2.
    - eapply Forall_impl;
        [apply (check_indentation_indent (splitlines source) prefer_spaces
                  indent_size), check_indentation_returns; done |].
      intros i Hi [Hc _]. simpl in Hi, Hc. congruence.
    - eapply Forall_impl; [apply check_trailing_format |].
      intros i [_ Hm] [_ Hm']. rewrite Hm in Hm'. by vm_compute in Hm'.
    - eapply Forall_impl; [apply check_block_balance_syntax |].
      intros i Hi [Hc _]. simpl in Hi, Hc. congruence. }
  rewrite <- !app_assoc, filter_app, (Hrest _ eq_refl), app_nil_r.
  split.
  - intros [Hne Hlast]. destruct (splitlines_nonempty source Hne) as [l Hl].
    exists l. split; [done |]. unfold final_newline, endswith.
    rewrite (bool_decide_eq_true_2 (source ≠ [])) by done.
    rewrite (bool_decide_eq_false_2 (last source = Some LF)) by done.
    cbn [andb negb]. rewrite Hl.
    rewrite bool_decide_eq_false_2.
    + by rewrite filter_cons_True.
    + apply last_Some in Hl as [init ->]. unfold len. rewrite length_app.
      simpl. lia.
  - intros Hno. unfold final_newline, endswith.
    destruct Hno as [-> | Hlast]; [done |].
    rewrite (bool_decide_eq_true_2 (last source = Some LF)) by done.
    by rewrite andb_false_r.
Qed.

(** C9. The result of the analysis is the findings of the final-newline
    check, then those of the indentation check, then those of the
    trailing-whitespace check, then those of the block-balance check, each
    in its own order; nothing sorts them by position, as the line [ x  ]
    without a newline shows, whose issues come out at columns 5, 1 and 4. *)
Theorem analyze_source_order
    (source : pystr) (prefer_spaces : bool) (indent_size : Z) :
  analyze_source isalpha source prefer_spaces indent_size
  = (found ←! _check_indentation (splitlines source) prefer_spaces indent_size;
     Returns (final_newline source (splitlines source)
              ++ found
              ++ _check_trailing_whitespace (splitlines source)
              ++ _check_block_balance isalpha (splitlines source)))
  ∧ (indent_size ≠ 0 →
     ∃ found,
       _check_indentation (splitlines source) prefer_spaces indent_size
       = Returns found
       ∧ analyze_source isalpha source prefer_spaces indent_size
         = Returns (final_newline source (splitlines source)
                    ++ found
                    ++ _check_trailing_whitespace (splitlines source)
                    ++ _check_block_balance isalpha (splitlines source)))
  ∧ analyze_source isalpha (lit " x  ") true 4
    = Returns [mkIssue 1 5 (lit "Missing final newline") FORMAT;
               mkIssue 1 1 (lit "Indentation width should be a multiple of 4")
                       INDENT;
               mkIssue 1 4 (lit "Trailing whitespace") FORMAT].
Proof.
  assert (analyze_source isalpha source prefer_spaces indent_size
          = (found ←! _check_indentation (splitlines source) prefer_spaces
                        indent_size;
             Returns (final_newline source (splitlines source)
                      ++ found
                      ++ _check_trailing_whitespace (splitlines source)
                      ++ _check_block_balance isalpha (splitlines source))))
    as Horder.
  { unfold analyze_source.
    destruct (_check_indentation _ _ _); [| done]. simpl.
    by rewrite <- !app_assoc. }
  split_and!; [done | |].
  - intros Hz. eexists. split; [by apply check_indentation_returns |].
    rewrite Horder. by rewrite check_indentation_returns.
  - vm_compute. destruct (isalpha 32%N), (isalpha 120%N); reflexivity.
Qed.

(** C10. The empty source has no issue, whatever the configuration: it has
    no line, the final-newline check and the three checks over the lines find
    nothing, and the analysis returns the empty list, also for an indent
    size of zero. *)
Theorem analyze_empty_source (prefer_spaces : bool) (indent_size : Z) :
  splitlines [] = []
  ∧ final_newline [] (splitlines []) = []
  ∧ _check_indentation (splitlines []) prefer_spaces indent_size = Returns []
  ∧ _check_trailing_whitespace (splitlines []) = []
  ∧ _check_block_balance isalpha (splitlines []) = []
  ∧ analyze_source isalpha [] prefer_spaces indent_size = Returns [].
Proof.
  assert (splitlines [] = []) as Hlines by reflexivity.
  rewrite Hlines. split_and!; [done.. |].
  unfold analyze_source. rewrite Hlines. reflexivity.
Qed.

End Orchestration.

(** ** Strings and comments are inert *)

Lemma Forall2_diag {A} (R : A → A → Prop) (l : list A) :
  (∀ x, R x x) → Forall2 R l l.
Proof. intros HR. induction l; by constructor. Qed.

Lemma leading_run_stop (k rest : pystr) c :
  Forall (λ a, a ∈ [SPACE; TAB]) k → c ∉ [SPACE; TAB] →
  leading_run (k ++ c :: rest) = k
  ∧ lstrip [SPACE; TAB] (k ++ c :: rest) = c :: rest.
Proof.
  intros Hk Hc. unfold leading_run. rewrite lstrip_app_stop by done.
  split; [| done]. apply take_app_length'. rewrite length_app. lia.
Qed.

(** The indentation of a line is decided by its first character that is
    not a space or a tab. *)
Lemma same_indentation_tail (pre r1 r2 : pystr) x :
  x ∉ [SPACE; TAB] → same_indentation (pre ++ x :: r1) (pre ++ x :: r2).
Proof.
  intros Hx. unfold same_indentation.
  destruct (lstrip_suffix [SPACE; TAB] pre) as (k & Hk & Hall).
  destruct (lstrip [SPACE; TAB] pre) as [|c s] eqn:Hs.
  - rewrite app_nil_r in Hk. subst k.
    destruct (leading_run_stop pre r1 x Hall Hx) as [-> ->].
    destruct (leading_run_stop pre r2 x Hall Hx) as [-> ->]. done.
  - apply lstrip_head in Hs. rewrite Hk, <- !app_assoc, <- !app_comm_cons.
    destruct (leading_run_stop k (s ++ x :: r1) c Hall Hs) as [-> ->].
    destruct (leading_run_stop k (s ++ x :: r2) c Hall Hs) as [-> ->]. done.
Qed.

Lemma indentation_body_ext ps isz idx (l1 l2 : pystr) :
  same_indentation l1 l2 →
  indentation_body ps isz idx l1 = indentation_body ps isz idx l2.
Proof.
  intros [Hrun Hblank]. unfold indentation_body.
  fold (leading_run l1). fold (leading_run l2). rewrite Hrun.
  by rewrite (bool_decide_ext _ _ Hblank).
Qed.

Lemma check_indentation_ext (ls1 ls2 : list pystr) ps isz :
  Forall2 same_indentation ls1 ls2 →
  _check_indentation ls1 ps isz = _check_indentation ls2 ps isz.
Proof.
  intros Hls. unfold _check_indentation. generalize 1.
  induction Hls as [|l1 l2 ls1 ls2 Hl _ IH]; intros start; [done |].
  cbn [enumerate for_yield].
  by rewrite (indentation_body_ext _ _ _ _ _ Hl), (IH (start + 1)).
Qed.

Lemma block_token_same_scan idx raw1 raw2 st1 st2 t :
  same_scan st1 st2 →
  same_scan (block_token idx raw1 st1 t) (block_token idx raw2 st2 t).
Proof.
  destruct st1 as [stack y1], st2 as [stack2 y2]. intros [Hs Hy].
  simpl in Hs, Hy. subst stack2. unfold block_token.
  destruct (_BLOCK_PAIRS !! t); [done |].
  case_bool_decide; [| done].
  destruct (last stack) as [[expected n]|].
  - case_bool_decide; [| done]. split; [done |]. simpl.
    by rewrite !fmap_app, Hy.
  - split; [done |]. simpl. by rewrite !fmap_app, Hy.
Qed.

Section Inert.

Variable isalpha : char → bool.

Lemma block_tokens_same_scan idx raw1 raw2 (ts : list pystr) st1 st2 :
  same_scan st1 st2 →
  same_scan (foldl (block_token idx raw1) st1 ts)
            (foldl (block_token idx raw2) st2 ts).
Proof.
  revert st1 st2. induction ts as [|t ts IH]; intros st1 st2 Hst; [done |].
  cbn [foldl]. by apply IH, block_token_same_scan.
Qed.

Lemma block_lines_same_scan (ls1 ls2 : list pystr) start st1 st2 :
  Forall2 (λ a b, _tokenize isalpha (_strip_comments a)
                  = _tokenize isalpha (_strip_comments b)) ls1 ls2 →
  same_scan st1 st2 →
  same_scan (foldl (block_line isalpha) st1 (enumerate start ls1))
            (foldl (block_line isalpha) st2 (enumerate start ls2)).
Proof.
  intros Hls. revert start st1 st2.
  induction Hls as [|a b ls1 ls2 Hab _ IH]; intros start st1 st2 Hst; [done |].
  cbn [enumerate foldl]. apply IH. unfold block_line. rewrite Hab.
  by apply block_tokens_same_scan.
Qed.

(** Lines that give the same tokens give the same issues, but for their
    columns. *)
Lemma check_block_balance_tokens (ls1 ls2 : list pystr) :
  Forall2 (λ a b, _tokenize isalpha (_strip_comments a)
                  = _tokenize isalpha (_strip_comments b)) ls1 ls2 →
  without_column <$> _check_block_balance isalpha ls1
  = without_column <$> _check_block_balance isalpha ls2.
Proof.
  intros Hls. unfold _check_block_balance.
  destruct (block_lines_same_scan ls1 ls2 1 ([], []) ([], []) Hls) as [Hs Hy];
    [done |].
  fold (block_scan isalpha ls1) in Hs, Hy.
  fold (block_scan isalpha ls2) in Hs, Hy.
  destruct (block_scan isalpha ls1) as [s1 y1].
  destruct (block_scan isalpha ls2) as [s2 y2]. simpl in Hs, Hy. subst s2.
  by rewrite !fmap_app, Hy.
Qed.

Hypothesis isalpha_space : isalpha SPACE = false.

Lemma tokenize_step_space st :
  tokenize_step isalpha (tokenize_step isalpha st SPACE) SPACE
  = tokenize_step isalpha st SPACE.
Proof.
  destruct st as [word yielded]. unfold tokenize_step at 2.
  rewrite isalpha_space. cbn [orb bool_decide decide_rel].
  assert (bool_decide (SPACE = UNDERSCORE) = false) as -> by done.
  case_bool_decide as Hw; unfold tokenize_step; rewrite isalpha_space;
    assert (bool_decide (SPACE = UNDERSCORE) = false) as -> by done;
    cbn [orb].
  - rewrite (bool_decide_eq_false_2 ([] ≠ [])) by (intros H; by apply H).
    by rewrite bool_decide_eq_true_2.
  - done.
Qed.

Lemma tokenize_step_spaces st n :
  foldl (tokenize_step isalpha) st (replicate (S n) SPACE)
  = tokenize_step isalpha st SPACE.
Proof.
  induction n as [|n IH]; [done |].
  rewrite replicate_S_end, foldl_app, IH. cbn [foldl].
  apply tokenize_step_space.
Qed.

(** A run of spaces separates words like one space. *)
Lemma tokenize_spaces (a b : pystr) n :
  _tokenize isalpha (a ++ replicate (S n) SPACE ++ b)
  = _tokenize isalpha (a ++ SPACE :: b).
Proof.
  unfold _tokenize. rewrite !foldl_app, tokenize_step_spaces. done.
Qed.

Lemma strip_comments_open_string (pre body : pystr) quote :
  lex_mode Normal pre = Some Normal → quote ∈ [DQUOTE; SQUOTE] →
  string_body quote body →
  ∃ n, _strip_comments (pre ++ quote :: body)
       = _strip_comments pre ++ replicate (S n) SPACE ++ [].
Proof.
  intros Hpre Hquote Hbody.
  destruct (quote_not_special _ Hquote) as [Hbs Hdash].
  destruct (lex_string_body quote body Hbs Hbody) as (n & _ & _ & _ & Hopen).
  exists n. rewrite !(proj2 (strip_comments_lex _)).
  rewrite (lex_app Normal Normal) by (done || (simpl; congruence)).
  rewrite render_app. f_equal. cbn [lex].
  assert (bool_decide (quote = DASH) = false) as ->
    by (by apply bool_decide_eq_false_2).
  cbn [andb]. rewrite bool_decide_eq_true_2 by done.
  rewrite render_cons, Hopen. by rewrite app_nil_r.
Qed.

Lemma same_findings_line (before after : list pystr) (l1 l2 : pystr) :
  _tokenize isalpha (_strip_comments l1) = _tokenize isalpha (_strip_comments l2) →
  same_indentation l1 l2 →
  same_findings isalpha (before ++ l1 :: after) (before ++ l2 :: after).
Proof.
  intros Htok Hind. split.
  - apply check_block_balance_tokens, Forall2_app; [by apply Forall2_diag |].
    constructor; [done | by apply Forall2_diag].
  - intros ps isz. apply check_indentation_ext, Forall2_app.
    + apply Forall2_diag. by intros x.
    + constructor; [done |]. apply Forall2_diag. by intros x.
Qed.

(** C5. What stands after a comment marker or inside a quoted string,
    closed or left open, has no effect on the block-balance issues, their
    columns apart, nor on the indentation issues: whatever the text there,
    keyword or not, the issues are the same.  The lines [-- then] and
    [x = "end"] have no issue at all. *)
Theorem strings_and_comments_inert
    (before after : list pystr) (pre : pystr) :
  lex_mode Normal pre = Some Normal →
  (∀ c1 c2,
     same_findings isalpha (before ++ (pre ++ DASH :: DASH :: c1) :: after)
                           (before ++ (pre ++ DASH :: DASH :: c2) :: after))
  ∧ (∀ quote body1 body2 post,
       quote ∈ [DQUOTE; SQUOTE] →
       string_body quote body1 → string_body quote body2 →
       same_findings isalpha
         (before ++ (pre ++ quote :: body1 ++ quote :: post) :: after)
         (before ++ (pre ++ quote :: body2 ++ quote :: post) :: after))
  ∧ (∀ quote body1 body2,
       quote ∈ [DQUOTE; SQUOTE] →
       string_body quote body1 → string_body quote body2 →
       same_findings isalpha (before ++ (pre ++ quote :: body1) :: after)
                             (before ++ (pre ++ quote :: body2) :: after))
  ∧ (∀ prefer_spaces,
       analyze_source isalpha (lit "-- then" ++ [LF]) prefer_spaces 4
       = Returns []
       ∧ analyze_source isalpha
           (lit "x = " ++ [DQUOTE] ++ lit "end" ++ [DQUOTE; LF]) prefer_spaces 4
         = Returns []).
Proof.
  intros Hpre. split_and!.
  - intros c1 c2. apply same_findings_line.
    + rewrite !(proj2 (strip_comments_lex _)).
      by rewrite (lex_comment _ _ c1), (lex_comment _ _ c2).
    + by apply same_indentation_tail, not_blank.
  - intros quote body1 body2 post Hq Hb1 Hb2. apply same_findings_line.
    + destruct (strip_comments_string pre body1 post quote Hpre Hq Hb1)
        as (n1 & _ & _ & ->).
      destruct (strip_comments_string pre body2 post quote Hpre Hq Hb2)
        as (n2 & _ & _ & ->).
      replace (n1 + 2)%nat with (S (S n1)) by lia.
      replace (n2 + 2)%nat with (S (S n2)) by lia.
      by rewrite !tokenize_spaces.
    + by apply same_indentation_tail, quote_not_blank.
  - intros quote body1 body2 Hq Hb1 Hb2. apply same_findings_line.
    + destruct (strip_comments_open_string pre body1 quote Hpre Hq Hb1)
        as (n1 & ->).
      destruct (strip_comments_open_string pre body2 quote Hpre Hq Hb2)
        as (n2 & ->).
      by rewrite !tokenize_spaces.
    + by apply same_indentation_tail, quote_not_blank.
  - intros ps. split.
    + by destruct ps; vm_compute.
    + unfold SPACE in isalpha_space.
      destruct ps; vm_compute; rewrite ?isalpha_space;
        destruct (isalpha 120%N), (isalpha 61%N); rewrite ?isalpha_space;
        reflexivity.
Qed.

End Inert.

(** * The statements at concrete sources *)

(** The balanced source of the test suite. *)
Lemma balanced_blocks_witness :
  balanced (tokens_read isalpha_ascii (splitlines greet_source))
  ∧ _check_block_balance isalpha_ascii (splitlines greet_source) = [].
Proof.
  assert (balanced (tokens_read isalpha_ascii (splitlines greet_source))) as Hbal.
  { apply (balanced_block (lit "function") (lit "end")
             [lit "greet"; lit "name"; lit "if"; lit "name"; lit "then";
              lit "print"; lit "name"; lit "end"] []);
      [reflexivity | | apply balanced_nil].
    do 4 (apply balanced_word; [decide_by_computation |]).
    apply (balanced_block (lit "then") (lit "end") [lit "print"; lit "name"] []);
      [reflexivity | | apply balanced_nil].
    do 2 (apply balanced_word; [decide_by_computation |]).
    apply balanced_nil. }
  split; [exact Hbal |].
  exact (proj1 (balanced_blocks_no_syntax_issue isalpha_ascii _ Hbal)).
Defined.

(** The stray [until] of the test suite, met with a frame that expects
    [end]. *)
Lemma closing_keyword_checked_witness :
  token_stream isalpha_ascii [lit "repeat"; lit "end"; lit "until x"]
  = [(1, lit "repeat", lit "repeat")]
    ++ (2, lit "end", lit "end")
       :: [(3, lit "until x", lit "until"); (3, lit "until x", lit "x")]
  ∧ lit "end" ∈ _BLOCK_ENDINGS
  ∧ ∃ k, first_occurrence (lit "end") (lit "end") k
         ∧ _check_block_balance isalpha_ascii
             [lit "repeat"; lit "end"; lit "until x"]
           = [mkIssue 2 (Z.of_nat k + 1)
                (lit "Expected '" ++ lit "until" ++ lit "' opened at line "
                 ++ str_of_int 1) SYNTAX].
Proof.
  assert (token_stream isalpha_ascii [lit "repeat"; lit "end"; lit "until x"]
          = [(1, lit "repeat", lit "repeat")]
            ++ (2, lit "end", lit "end")
               :: [(3, lit "until x", lit "until"); (3, lit "until x", lit "x")])
    as Hstream by (vm_compute; reflexivity).
  assert (lit "end" ∈ _BLOCK_ENDINGS) as Hend by decide_by_computation.
  split; [exact Hstream |]. split; [exact Hend |].
  destruct (closing_keyword_checked isalpha_ascii _ _ _ _ _ _ Hstream Hend)
    as (k & stack & yielded & _ & Hfirst & Hstate & _ & Hmismatch & _).
  assert (foldl block_item ([], []) [(1, lit "repeat", lit "repeat")]
          = ([(lit "until", 1)], [])) as Hrepeat by (vm_compute; reflexivity).
  rewrite Hrepeat in Hstate. injection Hstate as <- <-.
  destruct (Hmismatch [] (lit "until") 1 eq_refl) as [_ Hcheck]; [discriminate |].
  exists k. split; [exact Hfirst |]. rewrite Hcheck.
  assert (block_rest ([] ++ [(lit "until", 1)])
            [(3, lit "until x", lit "until"); (3, lit "until x", lit "x")]
          = []) as -> by (vm_compute; reflexivity).
  reflexivity.
Defined.

(** A keyword in a string, against the empty string. *)
Lemma strings_and_comments_witness :
  isalpha_ascii SPACE = false
  ∧ lex_mode Normal (lit "x = ") = Some Normal
  ∧ same_findings isalpha_ascii
      ([] ++ (lit "x = " ++ SQUOTE :: lit "end" ++ SQUOTE :: []) :: [])
      ([] ++ (lit "x = " ++ SQUOTE :: [] ++ SQUOTE :: []) :: []).
Proof.
  split; [reflexivity |]. split; [reflexivity |].
  destruct (strings_and_comments_inert isalpha_ascii eq_refl [] [] (lit "x = ")
              eq_refl) as (_ & Hstring & _).
  apply (Hstring SQUOTE (lit "end") [] []).
  - right. left.
  - vm_compute. repeat (apply body_plain; [discriminate | discriminate |]).
    apply body_nil.
  - apply body_nil.
Defined.

(** The source of the test suite that lacks its final newline. *)
Lemma missing_final_newline_witness :
  4 ≠ 0
  ∧ ∃ issues,
      analyze_source isalpha_ascii (lit "print('hello world')") true 4
      = Returns issues
      ∧ filter (λ i, code i = FORMAT ∧ message i = lit "Missing final newline")
               issues
        = [mkIssue 1 21 (lit "Missing final newline") FORMAT].
Proof.
  assert (4 ≠ 0) as Hz by discriminate.
  split; [exact Hz |].
  destruct (missing_final_newline isalpha_ascii (lit "print('hello world')")
              true 4 Hz) as (issues & Hrun & Hmissing & _).
  exists issues. split; [exact Hrun |].
  destruct Hmissing as (l & Hl & Hfilter); [split; discriminate |].
  rewrite Hfilter. f_equal. f_equal.
  vm_compute in Hl. injection Hl as <-. reflexivity.
Defined.

(** * Further properties *)

(** ** The tokenizer *)

Section Tokenizer.

Variable isalpha : char → bool.

Lemma tokenize_step_word (w word : pystr) (yielded : list pystr) :
  Forall (λ c, word_char isalpha c = true) w →
  foldl (tokenize_step isalpha) (word, yielded) w = (word ++ w, yielded).
Proof.
  revert word. induction w as [|c w IH]; intros word Hw.
  - by rewrite app_nil_r.
  - apply Forall_cons in Hw as [Hc Hw]. cbn [foldl tokenize_step].
    unfold word_char in Hc. rewrite Hc, IH by done. by rewrite <- app_assoc.
Qed.

(** The tokens yielded so far are never touched again. *)
Lemma tokenize_yielded_prefix (l word : pystr) (yielded : list pystr) :
  foldl (tokenize_step isalpha) (word, yielded) l
  = ((foldl (tokenize_step isalpha) (word, []) l).1,
     yielded ++ (foldl (tokenize_step isalpha) (word, []) l).2).
Proof.
  revert word yielded. induction l as [|c l IH]; intros word yielded.
  - by rewrite app_nil_r.
  - cbn [foldl tokenize_step].
    destruct (isalpha c || bool_decide (c = UNDERSCORE)); [apply IH |].
    case_bool_decide; [| apply IH].
    rewrite (IH [] (yielded ++ [word])), (IH [] ([] ++ [word])).
    by rewrite <- app_assoc.
Qed.

(** X2. The tokenizer splits at every character that is neither alphabetic
    nor an underscore and yields the words between them: a line of word
    characters is one token, and the tokens of a line with a separator are
    those before it followed by those after it. *)
Theorem tokenize_splits_at_separators :
  _tokenize isalpha [] = []
  ∧ (∀ w, w ≠ [] → Forall (λ c, word_char isalpha c = true) w →
          _tokenize isalpha w = [w])
  ∧ (∀ a sep b, word_char isalpha sep = false →
                _tokenize isalpha (a ++ sep :: b)
                = _tokenize isalpha a ++ _tokenize isalpha b).
Proof.
  split_and!; [done | |].
  - intros w Hne Hw. unfold _tokenize. rewrite tokenize_step_word by done.
    by rewrite bool_decide_eq_true_2.
  - intros a sep b Hsep. unfold _tokenize. rewrite foldl_app.
    destruct (foldl (tokenize_step isalpha) ([], []) a) as [word yielded].
    cbn [foldl tokenize_step]. unfold word_char in Hsep. rewrite Hsep.
    clear Hsep. rewrite (tokenize_yielded_prefix b).
    destruct (decide (word = [])) as [->|Hne].
    + rewrite !(bool_decide_eq_false_2 ([] ≠ [])) by (intros H; by apply H).
      rewrite (tokenize_yielded_prefix b []). simpl.
      destruct (foldl _ ([], []) b) as [w y]. simpl.
      case_bool_decide; by rewrite <- ?app_assoc.
    + rewrite !(bool_decide_eq_true_2 (word ≠ [])) by done.
      rewrite (tokenize_yielded_prefix b []). simpl.
      destruct (foldl _ ([], []) b) as [w y]. simpl.
      case_bool_decide; by rewrite <- ?app_assoc.
Qed.

Lemma tokenize_step_words (l word : pystr) (yielded : list pystr) :
  Forall (λ c, word_char isalpha c = true) word →
  Forall (λ t, t ≠ [] ∧ Forall (λ c, word_char isalpha c = true) t) yielded →
  let st := foldl (tokenize_step isalpha) (word, yielded) l in
  Forall (λ c, word_char isalpha c = true) st.1
  ∧ Forall (λ t, t ≠ [] ∧ Forall (λ c, word_char isalpha c = true) t) st.2
  ∧ mjoin st.2 ++ st.1
    = mjoin yielded ++ word ++ filter (λ c, word_char isalpha c = true) l.
Proof.
  revert word yielded. induction l as [|c l IH]; intros word yielded Hw Hy.
  - simpl. by rewrite app_nil_r.
  - cbn [foldl tokenize_step]. rewrite filter_cons.
    fold (word_char isalpha c). destruct (word_char isalpha c) eqn:Hc.
    + rewrite decide_True by done.
      destruct (IH (word ++ [c]) yielded) as (H1 & H2 & H3); [| done |].
      { apply Forall_app. split; [done |]. by constructor. }
      split_and!; [done.. |]. cbv zeta in *. rewrite H3.
      by rewrite <- !app_assoc.
    + rewrite decide_False by (by intros ?).
      case_bool_decide as Hne.
      * destruct (IH [] (yielded ++ [word])) as (H1 & H2 & H3); [done | |].
        { apply Forall_app. split; [done |]. by constructor. }
        split_and!; [done.. |]. cbv zeta in *. rewrite H3.
        rewrite join_app. simpl. by rewrite !app_nil_r, <- !app_assoc.
      * destruct (IH word yielded) as (H1 & H2 & H3); done.
Qed.

(** X1. Every token is a non-empty run of alphabetic characters and
    underscores, and the tokens of a line, put together, are the line
    without its other characters: nothing is lost or invented. *)
Theorem tokenize_words (l : pystr) :
  Forall (λ t, t ≠ [] ∧ Forall (λ c, word_char isalpha c = true) t)
         (_tokenize isalpha l)
  ∧ mjoin (_tokenize isalpha l) = filter (λ c, word_char isalpha c = true) l.
Proof.
  unfold _tokenize.
  destruct (tokenize_step_words l [] []) as (Hw & Hy & Hjoin); [done.. |].
  cbv zeta in *.
  destruct (foldl (tokenize_step isalpha) ([], []) l) as [word yielded].
  simpl in *. case_bool_decide as Hne.
  - split.
    + apply Forall_app. split; [done |]. by constructor.
    + rewrite join_app. simpl. by rewrite app_nil_r.
  - split; [done |]. assert (word = []) as -> by (by destruct word).
    by rewrite app_nil_r in Hjoin.
Qed.

End Tokenizer.

(** ** Columns *)

(** X3. The column that [_find_column] reports lies in the line or just
    after its end; when the token occurs in the line it is the column of
    the first occurrence, which ends inside the line, and when it does not
    occur the column is 1. *)
Theorem find_column_in_line (s t : pystr) :
  1 ≤ _find_column s t ≤ len s + 1
  ∧ (∀ k, occurs_at s t k →
       ∃ k0, first_occurrence s t k0 ∧ (k0 ≤ k)%nat
             ∧ _find_column s t = Z.of_nat k0 + 1
             ∧ Z.of_nat k0 + len t ≤ len s)
  ∧ ((∀ k, ¬ occurs_at s t k) → _find_column s t = 1).
Proof.
  assert (∀ k, occurs_at s t k → Z.of_nat k + len t ≤ len s) as Hfits.
  { intros k (a & b & -> & <-). unfold len. rewrite !length_app. lia. }
  destruct (find_column_first_occurrence s t)
    as [(k0 & Hfirst & Hcol)|[Hnone Hcol]].
  - pose proof (Hfits k0 (proj1 Hfirst)) as Hk0.
    pose proof (Nat2Z.is_nonneg (length t)) as Ht. unfold len in *.
    split_and!.
    + lia.
    + lia.
    + intros k Hk. exists k0. split_and!; [done | | done | done].
      destruct (decide (k0 ≤ k)%nat) as [|Hlt]; [done |].
      destruct (proj2 Hfirst k); [lia | done].
    + intros Hnone. destruct (Hnone k0). apply Hfirst.
  - pose proof (Nat2Z.is_nonneg (length s)) as Hs. unfold len.
    split_and!; [lia.. | |].
    + intros k Hk. by destruct (Hnone k).
    + done.
Qed.

(** ** The stripped line *)

Lemma render_no_quote m (l : pystr) :
  Forall (λ c, c ∉ [DQUOTE; SQUOTE]) (render (lex m l)).
Proof.
  assert (SPACE ∉ [DQUOTE; SQUOTE]) as Hspace by decide_by_computation.
  revert m. induction l as [|ch l IH]; intros m; [constructor |].
  destruct m as [|quote|quote]; cbn [lex].
  - destruct (bool_decide (ch = DASH) && bool_decide (head l = Some DASH));
      [constructor |].
    case_bool_decide as Hq; rewrite render_cons; simpl; constructor; auto.
  - repeat case_bool_decide; rewrite render_cons; simpl; constructor; auto.
  - rewrite render_cons. simpl. auto.
Qed.

Lemma head_render_normal (l : pystr) :
  head (render (lex Normal l)) = Some DASH → head l = Some DASH.
Proof.
  destruct l as [|ch l]; [done |]. cbn [lex].
  destruct (bool_decide (ch = DASH) && bool_decide (head l = Some DASH));
    [done |].
  case_bool_decide; rewrite render_cons; simpl; [done |]. by intros [= ->].
Qed.

Lemma render_no_marker m (l : pystr) : no_marker (render (lex m l)).
Proof.
  revert m. induction l as [|ch l IH]; intros m; [done |].
  destruct m as [|quote|quote]; cbn [lex].
  - destruct (bool_decide (ch = DASH) && bool_decide (head l = Some DASH)) eqn:Hc;
      [done |].
    destruct (bool_decide (ch ∈ [DQUOTE; SQUOTE])); rewrite render_cons; simpl.
    + split; [done | apply IH].
    + split; [| apply IH]. intros -> Hhead%head_render_normal.
      rewrite Hhead in Hc. done.
  - repeat case_bool_decide; rewrite render_cons; simpl; (split; [done | apply IH]).
  - rewrite render_cons. simpl. apply IH.
Qed.

Lemma no_marker_infix (s a b : pystr) : no_marker s → s ≠ a ++ DASH :: DASH :: b.
Proof.
  revert s. induction a as [|c a IH]; intros s Hs ->.
  - simpl in Hs. by destruct Hs as [Hd _]; destruct Hd.
  - simpl in Hs. destruct Hs as [_ Hs]. by apply (IH _ Hs).
Qed.

Lemma lex_plain (s : pystr) :
  Forall (λ c, c ∉ [DQUOTE; SQUOTE]) s → no_marker s →
  render (lex Normal s) = s.
Proof.
  induction 1 as [|c s Hc _ IH]; intros Hm; [done |].
  destruct Hm as [Hd Hm]. cbn [lex].
  rewrite (bool_decide_eq_false_2 (c ∈ _)) by done.
  destruct (bool_decide (c = DASH) && bool_decide (head s = Some DASH)) eqn:Hcond.
  - apply andb_prop in Hcond as [Hdash Hhead].
    apply bool_decide_eq_true in Hdash, Hhead. by destruct (Hd Hdash).
  - rewrite render_cons. simpl. f_equal. by apply IH.
Qed.

(** X4. The stripped line has no quote character and no comment marker
    left, so stripping it again changes nothing. *)
Theorem strip_comments_idempotent (l : pystr) :
  Forall (λ c, c ≠ DQUOTE ∧ c ≠ SQUOTE) (_strip_comments l)
  ∧ (∀ a b, _strip_comments l ≠ a ++ DASH :: DASH :: b)
  ∧ _strip_comments (_strip_comments l) = _strip_comments l.
Proof.
  pose proof (render_no_quote Normal l) as Hq.
  pose proof (render_no_marker Normal l) as Hm.
  rewrite !(proj2 (strip_comments_lex _)). split_and!.
  - eapply Forall_impl; [exact Hq |]. simpl. intros c Hc.
    rewrite !not_elem_of_cons in Hc. tauto.
  - intros a b. by apply no_marker_infix.
  - by apply lex_plain.
Qed.

(** ** Clean indentation *)

Lemma only_tabs_all indent :
  Forall (λ c, c ∈ [SPACE; TAB]) indent → SPACE ∉ indent →
  Forall (λ c, c = TAB) indent.
Proof.
  induction 1 as [|c rest Hc _ IH]; intros Hsp; constructor.
  - apply not_elem_of_cons in Hsp as [Hne _].
    apply elem_of_cons in Hc as [->|Hc]; [done |].
    by apply list_elem_of_singleton in Hc.
  - apply IH. by apply not_elem_of_cons in Hsp as [_ ?].
Qed.

Lemma indentation_rules_clean ps isz idx (l : pystr) :
  indentation_rules ps isz idx l = [] ↔ clean_indent ps isz l.
Proof.
  unfold indentation_rules, clean_indent.
  destruct (leading_run_split l) as [_ Hall].
  set (indent := leading_run l) in *.
  case_decide as Hblank; [by split; [left |] |].
  case_decide as Hmixed.
  { split; [done |]. intros [?|[[Hsp _]|[_ Htab]]]; [done | |].
    - destruct Hmixed as [_ Hin]. eapply Forall_forall in Hsp; [| exact Hin]. done.
    - destruct Hmixed as [Hin _]. eapply Forall_forall in Htab; [| exact Hin]. done. }
  case_decide as Htabs.
  { split; [done |]. destruct Htabs as [-> Hin].
    intros [?|[[Hsp _]|[? _]]]; [done | | done].
    eapply Forall_forall in Hsp; [| exact Hin]. done. }
  case_decide as Hwidth.
  { split; [done |]. destruct Hwidth as (Hne & Hsp & Hmod).
    intros [?|[[_ ?]|[_ Htab]]]; [done.. |].
    destruct Hsp as [|c rest -> _]; [done |].
    by apply Forall_cons in Htab as [? _]. }
  split; [intros _ | done]. right.
  destruct (decide (TAB ∈ indent)) as [Hin|Hin].
  - right. split; [destruct ps; tauto |].
    apply only_tabs_all; [done | tauto].
  - left. pose proof (only_spaces _ Hall Hin) as Hsp. split; [done |].
    destruct (decide (indent = [])) as [->|Hne]; [apply Zmod_0_l |].
    destruct (decide (len indent `mod` isz = 0)); [done | tauto].
Qed.

(** X5. For an indent size other than zero the indentation check finds
    nothing exactly when every line is blank, or indented by spaces only to
    a multiple of the indent size, or, with tabs allowed, by tabs only. *)
Theorem indentation_clean_iff (lines : list pystr) (ps : bool) (isz : Z) :
  isz ≠ 0 →
  _check_indentation lines ps isz = Returns []
  ↔ Forall (clean_indent ps isz) lines.
Proof.
  intros Hz. rewrite check_indentation_returns by done. split.
  - intros [= Hnil]. apply Forall_forall. intros l Hl.
    apply list_elem_of_lookup in Hl as [k Hk].
    apply (indentation_rules_clean ps isz (1 + Z.of_nat k)).
    destruct (indentation_rules ps isz (1 + Z.of_nat k) l) as [|i rest] eqn:Hr;
      [done |].
    assert (i ∈ ('(idx, l) ← enumerate 1 lines; indentation_rules ps isz idx l))
      as Hin.
    { apply list_elem_of_bind. exists (1 + Z.of_nat k, l). split.
      - rewrite Hr. left.
      - apply elem_of_enumerate. eauto. }
    rewrite Hnil in Hin. by apply elem_of_nil in Hin.
  - intros Hclean. f_equal. apply elem_of_nil_inv. intros i Hin.
    apply list_elem_of_bind in Hin as ([idx l] & Hi & Hl).
    apply elem_of_enumerate in Hl as (k & Hk & _).
    eapply Forall_forall in Hclean; [| by eapply list_elem_of_lookup_2].
    apply (indentation_rules_clean ps isz idx) in Hclean.
    rewrite Hclean in Hi. by apply elem_of_nil in Hi.
Qed.

Lemma tabs_only_rules ps isz idx (l : pystr) :
  lstrip [SPACE; TAB] l ≠ [] → leading_run l ≠ [] →
  Forall (λ c, c = TAB) (leading_run l) →
  indentation_rules ps isz idx l = if ps then [tab_issue idx 1] else [].
Proof.
  intros Hblank Hne Htabs. unfold indentation_rules.
  destruct (leading_run_split l) as [Hsplit _].
  destruct (leading_run l) as [|c rest] eqn:Hrun; [done |].
  apply Forall_cons in Htabs as [-> Htabs].
  rewrite decide_False by done.
  rewrite decide_False.
  2: { intros [Hsp _]. apply elem_of_cons in Hsp as [?|Hsp]; [done |].
       eapply Forall_forall in Htabs; [| exact Hsp]. done. }
  destruct ps.
  - rewrite decide_True by (split; [done | left]).
    by rewrite Hsplit.
  - rewrite decide_False by (by intros [? _]).
    rewrite decide_False; [done |].
    intros (_ & Hsp & _). by apply Forall_cons in Hsp as [? _].
Qed.

(** X6. On lines indented by tabs only the indentation check never raises,
    whatever the indent size: with tabs allowed it finds nothing, with tabs
    disallowed it finds one "Tab indentation" issue for each line, in line
    order, at column 1, where the first tab stands. *)
Theorem tabs_only_indentation (lines : list pystr) (isz : Z) :
  Forall (λ l, lstrip [SPACE; TAB] l ≠ [] ∧ leading_run l ≠ []
               ∧ Forall (λ c, c = TAB) (leading_run l)) lines →
  _check_indentation lines false isz = Returns []
  ∧ _check_indentation lines true isz
    = Returns ((λ it, mkIssue it.1 1
                        (lit "Tab indentation found (expected spaces)") INDENT)
               <$> enumerate 1 lines)
  ∧ Forall (λ l, head l = Some TAB) lines.
Proof.
  intros Htabs.
  assert (∀ ps, _check_indentation lines ps isz
                = Returns ('(idx, l) ← enumerate 1 lines;
                           if ps then [tab_issue idx 1] else [])) as Hcheck.
  { intros ps. rewrite check_indentation_rules. rewrite decide_False.
    - f_equal.
      assert (∀ start,
                ('(idx, l) ← enumerate start lines; indentation_rules ps isz idx l)
                = ('(idx, l) ← enumerate start lines;
                   if ps then [tab_issue idx 1] else [])) as Heq; [| apply Heq].
      induction Htabs as [|l ls (H1 & H2 & H3) _ IH]; intros start; [done |].
      cbn [enumerate]. rewrite !bind_cons, IH. f_equal.
      by apply tabs_only_rules.
    - intros ([idx l] & Hin & _ & _ & Hne & Hnotab)%Exists_exists.
      apply elem_of_enumerate in Hin as (k & Hk & _). simpl in *.
      eapply Forall_forall in Htabs; [| by eapply list_elem_of_lookup_2].
      destruct Htabs as (_ & _ & Hall).
      destruct (leading_run l) as [|c rest]; [done |].
      apply Forall_cons in Hall as [-> _]. apply Hnotab. left. }
  split_and!.
  - rewrite Hcheck. f_equal.
    assert (∀ start, ('(idx, l) ← enumerate start lines; @nil Issue) = [])
      as Heq; [| apply Heq].
    clear. induction lines as [|l ls IH]; intros start; [done |].
    cbn [enumerate]. rewrite bind_cons. by rewrite IH.
  - rewrite Hcheck. f_equal.
    assert (∀ start,
              ('(idx, l) ← enumerate start lines; [tab_issue idx 1])
              = (λ it, tab_issue it.1 1) <$> enumerate start lines) as Heq;
      [| apply Heq].
    clear. induction lines as [|l ls IH]; intros start; [done |].
    cbn [enumerate]. rewrite bind_cons, fmap_cons, IH. done.
  - eapply Forall_impl; [exact Htabs |]. simpl. intros l (_ & Hne & Hall).
    destruct (leading_run_split l) as [Hsplit _].
    destruct (leading_run l) as [|c rest]; [done |].
    apply Forall_cons in Hall as [-> _]. by rewrite Hsplit.
Qed.

(** ** Positions *)

Lemma find_column_bounds (s t : pystr) : 1 ≤ _find_column s t ≤ len s + 1.
Proof.
  pose proof (Nat2Z.is_nonneg (length s)) as Hs. unfold len.
  destruct (find_column_first_occurrence s t)
    as [(k & [(a & b & -> & <-) _] & ->)|[_ ->]]; [| lia].
  rewrite !length_app. lia.
Qed.

Lemma index_bounds c (s : pystr) k : index c s = Some k → 0 ≤ k < len s.
Proof.
  revert k. induction s as [|a s IH]; intros k; simpl; [done |].
  unfold len in *. case_bool_decide.
  - intros [= <-]. simpl. lia.
  - destruct (index c s) as [j|]; simpl; [| done]. intros [= <-].
    specialize (IH j eq_refl). simpl. lia.
Qed.

Lemma rstrip_nil chars : rstrip chars [] = [].
Proof. done. Qed.

Lemma final_newline_well_placed (source : pystr) :
  Forall (well_placed (splitlines source))
         (final_newline source (splitlines source)).
Proof.
  unfold final_newline. case_bool_decide as Hne; simpl; [| constructor].
  destruct (negb (endswith source LF)); [| constructor].
  destruct (splitlines_nonempty source Hne) as [l Hl]. rewrite Hl.
  pose proof Hl as Hl'. apply last_Some in Hl' as [init Hinit].
  constructor; [| constructor]. exists l. simpl.
  assert (len (splitlines source) = Z.of_nat (length init) + 1) as Hlen.
  { rewrite Hinit. unfold len. rewrite length_app. simpl. lia. }
  rewrite bool_decide_eq_false_2 by lia.
  pose proof (Nat2Z.is_nonneg (length l)) as Hnn. unfold len in *.
  split_and!; [| lia..].
  rewrite Hlen.
  replace (Z.to_nat (Z.of_nat (length init) + 1 - 1)) with (length init) by lia.
  rewrite Hinit. by apply list_lookup_middle.
Qed.

Lemma indentation_rules_well_placed (lines : list pystr) ps isz k (l : pystr) :
  lines !! k = Some l →
  Forall (well_placed lines) (indentation_rules ps isz (1 + Z.of_nat k) l).
Proof.
  intros Hk.
  assert (∀ col message code, 1 ≤ col ≤ len l + 1 →
            well_placed lines (mkIssue (1 + Z.of_nat k) col message code))
    as Hplaced.
  { intros col message code Hcol. exists l. simpl. split_and!; try lia.
    by replace (Z.to_nat (1 + Z.of_nat k - 1)) with k by lia. }
  pose proof (Nat2Z.is_nonneg (length l)) as Hnn.
  unfold indentation_rules.
  repeat case_decide; repeat constructor; apply Hplaced; unfold len in *.
  - lia.
  - destruct (index TAB l) as [j|] eqn:Hj; simpl; [| lia].
    apply index_bounds in Hj. unfold len in Hj. lia.
  - match goal with H : _ ≠ [] ∧ _ |- _ => destruct H as (Hne & _) end.
    unfold leading_run in *. rewrite length_take.
    destruct (take _ l) eqn:Ht; [done |].
    assert (length (take (length l - length (lstrip [SPACE; TAB] l)) l) ≠ 0)%nat
      as Hlen by (by rewrite Ht).
    rewrite length_take in Hlen. lia.
Qed.

Lemma trailing_body_well_placed (lines : list pystr) k (l : pystr) :
  lines !! k = Some l →
  Forall (well_placed lines) (trailing_body (1 + Z.of_nat k) l).
Proof.
  intros Hk. unfold trailing_body. case_bool_decide as Hne; constructor;
    [| constructor].
  exists l. simpl. split_and!; try lia.
  - by replace (Z.to_nat (1 + Z.of_nat k - 1)) with k by lia.
  - destruct l; [done |]. unfold len. simpl. lia.
Qed.

Lemma block_token_well_placed (lines : list pystr) idx raw st t :
  lines !! Z.to_nat (idx - 1) = Some raw → 1 ≤ idx →
  Forall (well_placed lines) st.2 →
  Forall (well_placed lines) (block_token idx raw st t).2.
Proof.
  intros Hraw Hidx. destruct st as [stack yielded]. simpl. intros Hy.
  assert (∀ message code,
            well_placed lines (mkIssue idx (_find_column raw t) message code))
    as Hplaced.
  { intros message code. exists raw. simpl.
    pose proof (find_column_bounds raw t). split_and!; [done | lia..]. }
  unfold block_token. destruct (_BLOCK_PAIRS !! t); [done |].
  case_bool_decide; [| done].
  destruct (last stack) as [[expected n]|].
  - case_bool_decide; [| done]. simpl. apply Forall_app. split; [done |].
    constructor; [apply Hplaced | constructor].
  - simpl. apply Forall_app. split; [done |].
    constructor; [apply Hplaced | constructor].
Qed.

Section Positions.

Variable isalpha : char → bool.

Lemma block_scan_well_placed (lines : list pystr) :
  Forall (well_placed lines) (block_scan isalpha lines).2.
Proof.
  rewrite block_scan_stream.
  assert (∀ stream st,
            Forall (λ it, it ∈ token_stream isalpha lines) stream →
            Forall (well_placed lines) st.2 →
            Forall (well_placed lines) (foldl block_item st stream).2) as Hfold.
  { induction stream as [|[[idx raw] t] stream IH]; intros st Hin Hst; [done |].
    apply Forall_cons in Hin as [Hit Hin]. cbn [foldl block_item]. apply IH;
      [done |].
    apply token_stream_line in Hit as (Hidx & Hraw & _).
    by apply block_token_well_placed. }
  apply Hfold; [| constructor]. by apply Forall_forall.
Qed.

Lemma unclosed_well_placed (lines : list pystr) :
  Forall (well_placed lines)
         ((λ f : frame, unclosed_issue f.2 f.1) <$> (block_scan isalpha lines).1).
Proof.
  destruct (block_scan_frames_ok isalpha lines) as [Hframes _].
  apply Forall_fmap. eapply Forall_impl; [exact Hframes |].
  intros [expected n] [_ Hn]. simpl in *.
  destruct (lines !! Z.to_nat (n - 1)) as [l|] eqn:Hl.
  - exists l. simpl. pose proof (Nat2Z.is_nonneg (length l)). unfold len.
    split_and!; [done | lia..].
  - apply lookup_ge_None in Hl. unfold len in Hn. lia.
Qed.

(** X7. A closing keyword that is the only keyword of the source gets
    exactly one "Unexpected" issue, at its line and at the column of its
    first occurrence there. *)
Theorem lone_closing_keyword
    (lines : list pystr) (before after : list (Z * pystr * pystr))
    (idx : Z) (raw closer : pystr) :
  token_stream isalpha lines = before ++ (idx, raw, closer) :: after →
  closer ∈ _BLOCK_ENDINGS →
  Forall (λ it, ¬ keyword it.2) before →
  Forall (λ it, ¬ keyword it.2) after →
  ∃ k, lines !! Z.to_nat (idx - 1) = Some raw
       ∧ first_occurrence raw closer k
       ∧ _check_block_balance isalpha lines
         = [mkIssue idx (Z.of_nat k + 1)
              (lit "Unexpected '" ++ closer ++ lit "'") SYNTAX].
Proof.
  intros Hstream Hend Hbefore Hafter.
  assert ((idx, raw, closer) ∈ token_stream isalpha lines) as Hin.
  { rewrite Hstream. apply elem_of_app. right. left. }
  apply token_stream_line in Hin as (Hidx & Hraw & Htok).
  destruct (closing_token_occurs isalpha raw closer Hend Htok)
    as (k & Hfirst & Hcol).
  exists k. split_and!; [done.. |].
  rewrite check_block_balance_scan, block_scan_stream, Hstream.
  rewrite !foldl_app, !(words_run before) by done. cbn [foldl block_item].
  rewrite block_token_unexpected by done.
  rewrite !(words_run after) by done. simpl. by rewrite Hcol.
Qed.

(** X8. Every issue of an analysis points into the source: its line is one
    of the lines, its column is a column of that line or the one after its
    end, and its code is FORMAT, INDENT or SYNTAX. *)
Theorem issues_point_into_source
    (source : pystr) (ps : bool) (isz : Z) (issues : list Issue) :
  analyze_source isalpha source ps isz = Returns issues →
  Forall (λ i, well_placed (splitlines source) i
               ∧ code i ∈ [FORMAT; INDENT; SYNTAX]) issues.
Proof.
  unfold analyze_source.
  destruct (_check_indentation (splitlines source) ps isz) as [found|e] eqn:Hind;
    [| done].
  intros [= <-]. cbn [app].
  pose proof (check_indentation_indent _ _ _ _ Hind) as Hcodes.
  rewrite check_indentation_rules in Hind. case_decide; [done |].
  injection Hind as <-.
  repeat apply Forall_app_2.
  - pose proof (final_newline_well_placed source) as Hp.
    pose proof (final_newline_format source (splitlines source)) as Hf.
    apply Forall_forall. intros i Hi. split.
    + by eapply Forall_forall in Hp.
    + eapply Forall_forall in Hf as [-> _]; [| done]. left.
  - apply Forall_forall. intros i Hi. split.
    + apply list_elem_of_bind in Hi as ([idx l] & Hi & Hl).
      apply elem_of_enumerate in Hl as (k & Hk & ->).
      pose proof (indentation_rules_well_placed _ ps isz k l Hk) as Hp.
      by eapply Forall_forall in Hp.
    + eapply Forall_forall in Hcodes; [| done]. simpl in Hcodes.
      rewrite Hcodes. right. left.
  - pose proof (check_trailing_format (splitlines source)) as Hf.
    apply Forall_forall. intros i Hi. split.
    + apply list_elem_of_bind in Hi as ([idx l] & Hi & Hl).
      apply elem_of_enumerate in Hl as (k & Hk & ->).
      pose proof (trailing_body_well_placed _ k l Hk) as Hp.
      by eapply Forall_forall in Hp.
    + eapply Forall_forall in Hf as [-> _]; [| done]. left.
  - pose proof (check_block_balance_syntax isalpha (splitlines source)) as Hs.
    apply Forall_forall. intros i Hi. split.
    + rewrite check_block_balance_scan in Hi.
      apply elem_of_app in Hi as [Hi|Hi].
      * pose proof (block_scan_well_placed (splitlines source)) as Hp.
        by eapply Forall_forall in Hp.
      * pose proof (unclosed_well_placed (splitlines source)) as Hp.
        by eapply Forall_forall in Hp.
    + eapply Forall_forall in Hs; [| done]. simpl in Hs. rewrite Hs.
      right. right. left.
Qed.

End Positions.

(** ** Adding the final newline *)

Lemma splitlines_go_final_newline n (s cur : pystr) c :
  (length s ≤ n)%nat → is_linebreak c = false →
  splitlines_go (s ++ [c; LF]) cur = splitlines_go (s ++ [c]) cur.
Proof.
  intros Hn Hc. revert s cur Hn.
  induction n as [|n IH]; intros s cur Hn.
  - destruct s; [| simpl in Hn; lia]. simpl. rewrite Hc. simpl.
    by destruct (cur ++ [c]) eqn:E; [destruct cur |].
  - destruct s as [|a s].
    { simpl. rewrite Hc. simpl. by destruct (cur ++ [c]) eqn:E; [destruct cur |]. }
    simpl in Hn. cbn [app splitlines_go].
    destruct (is_linebreak a); [| apply IH; lia]. f_equal.
    destruct s as [|b s].
    + simpl. rewrite Hc. rewrite (bool_decide_eq_false_2 (c = LF)).
      * by rewrite andb_false_r.
      * intros ->. done.
    + cbn [app]. simpl in Hn.
      destruct (bool_decide (a = CR) && bool_decide (b = LF)).
      * apply IH. lia.
      * apply (IH (b :: s)). simpl. lia.
Qed.

Section FinalNewline.

Variable isalpha : char → bool.

(** X9. When the last character of a source is not a line boundary, adding
    the final newline leaves the lines as they are, and the analysis of the
    source is the analysis of the completed source with the "Missing final
    newline" issue put in front: the newline mends that issue and changes
    nothing else. *)
Theorem final_newline_mends (s : pystr) (c : char) (ps : bool) (isz : Z) :
  is_linebreak c = false →
  splitlines ((s ++ [c]) ++ [LF]) = splitlines (s ++ [c])
  ∧ ∃ l, last (splitlines (s ++ [c])) = Some l
         ∧ analyze_source isalpha (s ++ [c]) ps isz
           = (rest ←! analyze_source isalpha ((s ++ [c]) ++ [LF]) ps isz;
              Returns (mkIssue (len (splitlines (s ++ [c]))) (len l + 1)
                         (lit "Missing final newline") FORMAT :: rest)).
Proof.
  intros Hc.
  assert (splitlines ((s ++ [c]) ++ [LF]) = splitlines (s ++ [c])) as Hlines.
  { unfold splitlines. rewrite <- app_assoc.
    by apply (splitlines_go_final_newline (length s)). }
  split; [done |].
  assert (s ++ [c] ≠ []) as Hne by (by destruct s).
  destruct (splitlines_nonempty _ Hne) as [l Hl]. exists l. split; [done |].
  unfold analyze_source. rewrite Hlines.
  assert (final_newline ((s ++ [c]) ++ [LF]) (splitlines (s ++ [c])) = [])
    as ->.
  { unfold final_newline, endswith. rewrite last_snoc.
    rewrite (bool_decide_eq_true_2 (Some LF = Some LF)) by done.
    by rewrite andb_false_r. }
  assert (final_newline (s ++ [c]) (splitlines (s ++ [c]))
          = [mkIssue (len (splitlines (s ++ [c]))) (len l + 1)
               (lit "Missing final newline") FORMAT]) as ->.
  { unfold final_newline, endswith. rewrite last_snoc, Hl.
    rewrite (bool_decide_eq_true_2 (s ++ [c] ≠ [])) by done.
    rewrite (bool_decide_eq_false_2 (Some c = Some LF))
      by (intros [= ->]; done).
    cbn [andb negb]. rewrite bool_decide_eq_false_2; [done |].
    apply last_Some in Hl as [init ->]. unfold len. rewrite length_app.
    simpl. lia. }
  by destruct (_check_indentation (splitlines (s ++ [c])) ps isz).
Qed.

End FinalNewline.

(** ** Decimal numbers in messages *)

Lemma lit_cons a s : lit (String a s) = N_of_ascii a :: lit s.
Proof. done. Qed.

Lemma lit_app s1 s2 : lit (s1 +:+ s2) = lit s1 ++ lit s2.
Proof.
  induction s1 as [|a s1 IH]; [done |].
  change (String a s1 +:+ s2) with (String a (s1 +:+ s2)).
  by rewrite !lit_cons, IH.
Qed.

Lemma lit_inj s1 s2 : lit s1 = lit s2 → s1 = s2.
Proof.
  revert s2. induction s1 as [|a s1 IH]; intros [|b s2]; try done.
  rewrite !lit_cons. intros [= Hab Hs].
  f_equal; [| by apply IH].
  by rewrite <- (ascii_N_embedding a), <- (ascii_N_embedding b), Hab.
Qed.

Lemma pretty_N_go_chars x s :
  Forall (λ c, c ∈ lit "-0123456789") (lit s) →
  Forall (λ c, c ∈ lit "-0123456789") (lit (pretty_N_go x s)).
Proof.
  revert s. induction (N.lt_wf_0 x) as [x _ IH]; intros s Hs.
  destruct (decide (x = 0)%N) as [->|Hx]; [by rewrite pretty_N_go_0 |].
  rewrite pretty_N_go_step by lia. apply IH.
  - apply N.div_lt; lia.
  - rewrite lit_cons. constructor; [| done].
    unfold pretty_N_char. repeat case_match; decide_by_computation.
Qed.

Lemma str_of_int_chars (z : Z) :
  Forall (λ c, c ∈ lit "-0123456789") (str_of_int z).
Proof.
  assert (∀ p, Forall (λ c, c ∈ lit "-0123456789") (lit (pretty (N.pos p))))
    as Hpos.
  { intros p. unfold pretty, pretty_N. rewrite decide_False by done.
    apply pretty_N_go_chars. constructor. }
  unfold str_of_int. destruct z as [|p|p].
  - repeat constructor; decide_by_computation.
  - apply Hpos.
  - change (pretty (Z.neg p)) with ("-" +:+ pretty (N.pos p)).
    rewrite lit_app. apply Forall_app. split; [| apply Hpos].
    repeat constructor; decide_by_computation.
Qed.

Lemma str_of_int_inj (z1 z2 : Z) : str_of_int z1 = str_of_int z2 → z1 = z2.
Proof. unfold str_of_int. intros H%lit_inj. by apply (inj pretty). Qed.

Lemma str_of_int_one_line (z : Z) : one_line (str_of_int z).
Proof.
  eapply Forall_impl; [apply str_of_int_chars |]. simpl. intros c Hc.
  assert (Forall (λ c, is_linebreak c = false) (lit "-0123456789")) as Hall
    by decide_by_computation.
  by eapply Forall_forall in Hall.
Qed.

(** ** The report *)

Lemma format_parts (color : bool) (issues : list Issue) acc :
  foldl (λ parts issue, parts ++ [format_part color issue]) acc issues
  = acc ++ (format_part color <$> issues).
Proof.
  revert acc. induction issues as [|i issues IH]; intros acc.
  - by rewrite app_nil_r.
  - cbn [foldl]. rewrite IH, fmap_cons. by rewrite <- app_assoc.
Qed.

Lemma format_issues_join (color : bool) (issues : list Issue) :
  issues ≠ [] →
  format_issues issues color = join [LF] (format_part color <$> issues).
Proof.
  intros Hne. unfold format_issues.
  rewrite bool_decide_eq_false_2 by done. by rewrite format_parts.
Qed.

Lemma format_part_plain (i : Issue) : format_part false i = Issue_str i.
Proof. unfold format_part, Issue_str. by rewrite <- !app_assoc. Qed.

Lemma format_part_head (color : bool) (i : Issue) :
  head (format_part color i) = Some (if color then ESC else 76%N).
Proof. by destruct color. Qed.

Lemma join_head sep (p : pystr) (parts : list pystr) :
  p ≠ [] → head (join sep (p :: parts)) = head p.
Proof. intros Hp. destruct p; [done |]. by destruct parts. Qed.

(** X10. The report is the sentence "No issues found." exactly when there
    is no issue: with issues it begins with the position of the first one,
    in colour or not, and so is never mistaken for the sentence. *)
Theorem format_issues_sentinel (issues : list Issue) (color : bool) :
  (format_issues issues color = lit "No issues found." ↔ issues = [])
  ∧ (issues ≠ [] →
     head (format_issues issues color) = Some (if color then ESC else 76%N))
  ∧ format_issues issues color ≠ [].
Proof.
  assert (issues ≠ [] →
          head (format_issues issues color)
          = Some (if color then ESC else 76%N)) as Hhead.
  { intros Hne. rewrite format_issues_join by done.
    destruct issues as [|i issues]; [done |]. rewrite fmap_cons.
    rewrite join_head; [apply format_part_head |].
    intros Hnil. pose proof (format_part_head color i) as H.
    by rewrite Hnil in H. }
  split_and!; [| done |].
  - split; [| by intros ->].
    intros Hfmt. destruct (decide (issues = [])) as [|Hne]; [done |].
    specialize (Hhead Hne). rewrite Hfmt in Hhead. by destruct color.
  - destruct (decide (issues = [])) as [->|Hne]; [done |].
    specialize (Hhead Hne). intros Hnil. by rewrite Hnil in Hhead.
Qed.

Lemma splitlines_go_one_line (p rest cur : pystr) :
  one_line p → splitlines_go (p ++ rest) cur = splitlines_go rest (cur ++ p).
Proof.
  intros Hp. revert cur. induction Hp as [|c p Hc _ IH]; intros cur.
  - by rewrite app_nil_r.
  - cbn [app splitlines_go]. rewrite Hc, IH. by rewrite <- app_assoc.
Qed.

(** Joining lines with newlines and splitting again gives the lines back. *)
Lemma splitlines_join (parts : list pystr) :
  Forall (λ p, p ≠ [] ∧ one_line p) parts →
  splitlines (join [LF] parts) = parts.
Proof.
  unfold splitlines. induction 1 as [|p parts [Hne Hp] Hparts IH]; [done |].
  cbn [join]. destruct parts as [|q parts].
  - pose proof (splitlines_go_one_line p [] [] Hp) as Hgo.
    rewrite app_nil_r in Hgo. rewrite Hgo. simpl. by destruct p.
  - rewrite splitlines_go_one_line by done. cbn [app splitlines_go].
    assert (is_linebreak LF = true) as -> by done. simpl app. f_equal.
    apply Forall_cons in Hparts as [[Hq _] _].
    destruct (join [LF] (q :: parts)) as [|c' rest'] eqn:Hjoin.
    + pose proof (join_head [LF] q parts Hq) as Hh. rewrite Hjoin in Hh.
      by destruct q.
    + rewrite <- IH. by rewrite (bool_decide_eq_false_2 (LF = CR)).
Qed.

Lemma lit_one_line_app (a b : pystr) : one_line a → one_line b → one_line (a ++ b).
Proof. intros. by apply Forall_app. Qed.

Lemma code_str_one_line c : one_line (code_str c).
Proof. destruct c; decide_by_computation. Qed.

Lemma format_part_one_line (color : bool) (i : Issue) :
  one_line (message i) →
  format_part color i ≠ [] ∧ one_line (format_part color i).
Proof.
  intros Hm. split.
  - intros Hnil. pose proof (format_part_head color i) as H.
    by rewrite Hnil in H.
  - pose proof (str_of_int_one_line (line i)).
    pose proof (str_of_int_one_line (column i)).
    pose proof (code_str_one_line (code i)).
    assert (one_line (lit "L")) by decide_by_computation.
    assert (one_line (lit ":C")) by decide_by_computation.
    assert (one_line (lit " ")) by decide_by_computation.
    assert (one_line (lit "[94m")) by decide_by_computation.
    assert (one_line (lit "[91m")) by decide_by_computation.
    assert (one_line (lit "[0m")) by decide_by_computation.
    assert (is_linebreak ESC = false) by done.
    unfold format_part. destruct color;
      repeat (apply lit_one_line_app || apply Forall_cons_2); done.
Qed.

Lemma block_endings_one_line (t : pystr) : t ∈ _BLOCK_ENDINGS → one_line t.
Proof. intros [-> | ->]%block_endings_cases; decide_by_computation. Qed.

Lemma block_token_one_line idx raw st t :
  Forall (λ f : frame, f.1 ∈ _BLOCK_ENDINGS) st.1 →
  Forall (λ i, one_line (message i)) st.2 →
  Forall (λ f : frame, f.1 ∈ _BLOCK_ENDINGS) (block_token idx raw st t).1
  ∧ Forall (λ i, one_line (message i)) (block_token idx raw st t).2.
Proof.
  destruct st as [stack yielded]. cbn [fst snd]. intros Hstack Hy.
  assert (one_line (lit "Unexpected '")) by decide_by_computation.
  assert (one_line (lit "Expected '")) by decide_by_computation.
  assert (one_line (lit "' opened at line ")) by decide_by_computation.
  assert (one_line (lit "'")) by decide_by_computation.
  unfold block_token. destruct (_BLOCK_PAIRS !! t) as [closer|] eqn:Hopen.
  - cbn [fst snd]. split; [| done]. apply Forall_app. split; [done |].
    constructor; [| done]. by apply block_pairs_closers in Hopen as [? _].
  - case_bool_decide as Hend; [| done].
    destruct (last stack) as [[expected n]|] eqn:Hlast.
    + apply last_Some in Hlast as [below ->].
      apply Forall_app in Hstack as [Hbelow Htop].
      apply Forall_cons in Htop as [Hexp _]. simpl in Hexp.
      case_bool_decide.
      * cbn [fst snd]. split; [apply Forall_app; split; [done | by constructor] |].
        apply Forall_app. split; [done |]. constructor; [| done]. cbn [message].
        repeat apply lit_one_line_app; try done.
        -- by apply block_endings_one_line.
        -- apply str_of_int_one_line.
      * cbn [fst snd]. by rewrite removelast_last.
    + cbn [fst snd]. split; [done |]. apply Forall_app. split; [done |].
      constructor; [| done]. cbn [message].
      repeat apply lit_one_line_app; try done.
      by apply block_endings_one_line.
Qed.

Section Report.

Variable isalpha : char → bool.

Lemma check_block_balance_one_line (lines : list pystr) :
  Forall (λ i, one_line (message i)) (_check_block_balance isalpha lines).
Proof.
  assert (∀ stream st,
            Forall (λ f : frame, f.1 ∈ _BLOCK_ENDINGS) st.1 →
            Forall (λ i, one_line (message i)) st.2 →
            Forall (λ f : frame, f.1 ∈ _BLOCK_ENDINGS)
                   (foldl block_item st stream).1
            ∧ Forall (λ i, one_line (message i)) (foldl block_item st stream).2)
    as Hfold.
  { induction stream as [|[[idx raw] t] stream IH]; intros st Hs Hy; [done |].
    cbn [foldl block_item].
    destruct (block_token_one_line idx raw st t Hs Hy). by apply IH. }
  rewrite check_block_balance_scan, block_scan_stream.
  destruct (Hfold (token_stream isalpha lines) ([], [])) as [Hs Hy];
    [constructor.. |].
  apply Forall_app. split; [done |]. apply Forall_fmap.
  eapply Forall_impl; [exact Hs |]. intros [expected n] Hexp.
  cbn [fst snd] in *. unfold compose, unclosed_issue. cbn [message].
  assert (one_line (lit "Unclosed block expecting '")) by decide_by_computation.
  assert (one_line (lit "'")) by decide_by_computation.
  repeat apply lit_one_line_app; try done. by apply block_endings_one_line.
Qed.

Lemma analysis_messages_one_line
    (source : pystr) (ps : bool) (isz : Z) (issues : list Issue) :
  analyze_source isalpha source ps isz = Returns issues →
  Forall (λ i, one_line (message i)) issues.
Proof.
  unfold analyze_source.
  destruct (_check_indentation (splitlines source) ps isz) as [found|e] eqn:Hind;
    [| done].
  intros [= <-]. cbn [app].
  rewrite check_indentation_rules in Hind. case_decide; [done |].
  injection Hind as <-.
  repeat apply Forall_app_2.
  - eapply Forall_impl; [apply final_newline_format |].
    intros i [_ ->]. decide_by_computation.
  - apply Forall_forall. intros i ([idx l] & Hi & _)%list_elem_of_bind.
    unfold indentation_rules in Hi.
    repeat case_decide; try (by apply elem_of_nil in Hi);
      apply list_elem_of_singleton in Hi as ->;
      unfold mixed_issue, tab_issue, width_issue; cbn [message];
      try decide_by_computation.
    apply lit_one_line_app; [decide_by_computation | apply str_of_int_one_line].
  - eapply Forall_impl; [apply check_trailing_format |].
    intros i [_ ->]. decide_by_computation.
  - apply check_block_balance_one_line.
Qed.

(** X11. The report of an analysis that found issues has one line for each
    issue, in their order: split into lines it gives back the parts that
    were joined, and without colour these are the renderings of the issues
    by [Issue.__str__]. *)
Theorem report_has_one_line_per_issue
    (source : pystr) (ps : bool) (isz : Z) (issues : list Issue) (color : bool) :
  analyze_source isalpha source ps isz = Returns issues →
  issues ≠ [] →
  splitlines (format_issues issues color) = format_part color <$> issues
  ∧ splitlines (format_issues issues false) = Issue_str <$> issues
  ∧ length (splitlines (format_issues issues color)) = length issues.
Proof.
  intros Hrun Hne.
  pose proof (analysis_messages_one_line _ _ _ _ Hrun) as Hmsg.
  assert (∀ c, splitlines (format_issues issues c) = format_part c <$> issues)
    as Hsplit.
  { intros c. rewrite format_issues_join by done. apply splitlines_join.
    apply Forall_fmap. eapply Forall_impl; [exact Hmsg |].
    intros i Hi. by apply format_part_one_line. }
  split_and!.
  - apply Hsplit.
  - rewrite Hsplit. apply list_fmap_ext. intros _ i _. apply format_part_plain.
  - by rewrite Hsplit, length_fmap.
Qed.

End Report.

Lemma split_at_first {A} (x : A) (a a' r r' : list A) :
  x ∉ a → x ∉ a' → a ++ x :: r = a' ++ x :: r' → a = a' ∧ r = r'.
Proof.
  revert a'. induction a as [|c a IH]; intros [|c' a'] Ha Ha' Heq.
  - by injection Heq as ->.
  - injection Heq as -> _. destruct Ha'. left.
  - injection Heq as -> _. destruct Ha. left.
  - injection Heq as -> Heq. apply not_elem_of_cons in Ha as [_ Ha].
    apply not_elem_of_cons in Ha' as [_ Ha'].
    destruct (IH a' Ha Ha' Heq) as [-> ->]. done.
Qed.

Lemma str_of_int_no_char (z : Z) (c : char) :
  c ∉ lit "-0123456789" → c ∉ str_of_int z.
Proof.
  intros Hc Hin. pose proof (str_of_int_chars z) as Hall.
  eapply Forall_forall in Hall; [| exact Hin]. done.
Qed.

(** X12. The one-line rendering of an issue loses nothing: issues that
    carry one of the codes GENERIC, FORMAT, INDENT and SYNTAX and have the
    same rendering are the same issue. *)
Theorem Issue_str_inj (i j : Issue) : Issue_str i = Issue_str j → i = j.
Proof.
  destruct i as [l1 c1 m1 k1], j as [l2 c2 m2 k2]. unfold Issue_str. simpl.
  assert (58%N ∉ lit "-0123456789") as Hcolon by decide_by_computation.
  assert (32%N ∉ lit "-0123456789") as Hspace by decide_by_computation.
  change (lit "L" ++ ?x) with (76%N :: x).
  change (lit ":C" ++ ?x) with (58%N :: 67%N :: x).
  change (lit " " ++ ?x) with (32%N :: x).
  intros [= Heq].
  apply split_at_first in Heq as [Hline Heq];
    [| by apply str_of_int_no_char..].
  injection Heq as Heq.
  apply split_at_first in Heq as [Hcol Heq];
    [| by apply str_of_int_no_char..].
  apply split_at_first in Heq as [Hcode Hmsg];
    [| destruct k1; decide_by_computation | destruct k2; decide_by_computation].
  apply str_of_int_inj in Hline as ->. apply str_of_int_inj in Hcol as ->.
  subst m2. f_equal. by destruct k1, k2.
Qed.

(** ** The command line *)

Section CommandLine.

Variable isalpha : char → bool.
Variable fs : gmap pystr file_entry.

Lemma last_problem_cons (c code : Z) (statuses : list Z) :
  c ≠ 0 →
  default code (last (filter (λ c, c ≠ 0) (c :: statuses)))
  = default c (last (filter (λ c, c ≠ 0) statuses)).
Proof.
  intros Hc. rewrite filter_cons_True by done. rewrite last_cons.
  by destruct (last (filter (λ c, c ≠ 0) statuses)).
Qed.

Lemma length_bind_pairs {A B} (l : list A) (f : A → list B) :
  (∀ x, length (f x) = 2%nat) → length (l ≫= f) = (2 * length l)%nat.
Proof.
  intros Hf. induction l as [|x l IH]; [done |].
  rewrite bind_cons, length_app, Hf, IH. simpl. lia.
Qed.

(** The loop of [main] over paths it gets past: the exit code it keeps and
    what it prints. *)
Lemma main_loop_passable (args : arguments) (todo : list pystr)
    (code : Z) (out : console) :
  Forall (passable isalpha fs args) todo →
  ∃ out',
    main_loop isalpha fs args todo code out
    = Exits (default code
               (last (filter (λ c, c ≠ 0) (path_status isalpha fs args <$> todo))))
            out'
    ∧ stderr out'
      = stderr out ++ ((λ p, p ++ lit ": file not found")
                       <$> filter (λ p, fs !! p = None) todo)
    ∧ ∃ found,
        Forall2 (λ p issues,
                   analyze_file isalpha fs p (negb (allow_tabs args))
                                (indent_size args) = inr issues)
                (filter (λ p, fs !! p ≠ None) todo) found
        ∧ stdout out'
          = stdout out
            ++ (zip (filter (λ p, fs !! p ≠ None) todo) found
                ≫= λ '(p, issues),
                     [lit "== " ++ p ++ lit " ==";
                      format_issues issues (color args)]).
Proof.
  intros Hall. revert code out.
  induction Hall as [|path todo Hpath _ IH]; intros code out.
  - exists out. simpl. split_and!; [done | by rewrite app_nil_r |].
    exists []. split; [constructor | by rewrite app_nil_r].
  - cbn [main_loop]. rewrite fmap_cons. unfold path_status at 1.
    destruct (fs !! path) as [entry|] eqn:Hfs.
    + rewrite bool_decide_eq_false_2 by done.
      destruct Hpath as [Hnone|[issues Hissues]]; [by rewrite Hfs in Hnone |].
      rewrite Hissues. cbn [stdout stderr].
      destruct (IH (if bool_decide (issues ≠ []) then 1 else code)
                  (mkConsole
                     ((stdout out ++ [lit "== " ++ path ++ lit " =="])
                      ++ [format_issues issues (color args)])
                     (stderr out)))
        as (out' & Hrun & Herr & found & Hfound & Hout).
      exists out'. rewrite Hrun. cbn [stdout stderr] in *.
      rewrite (filter_cons_False (λ p, fs !! p = None))
        by (simpl; congruence).
      rewrite (filter_cons_True (λ p, fs !! p ≠ None))
        by (simpl; congruence).
      split_and!; [| done |].
      * f_equal. destruct issues as [|i issues].
        -- rewrite bool_decide_eq_false_2 by (intros H; by apply H).
           by rewrite filter_cons_False by (intros H; by apply H).
        -- rewrite bool_decide_eq_true_2 by done.
           by rewrite last_problem_cons.
      * exists (issues :: found). split; [by constructor |].
        rewrite Hout. cbn [zip zip_with]. rewrite bind_cons.
        by rewrite <- !app_assoc.
    + rewrite bool_decide_eq_true_2 by done. cbn [stdout stderr].
      destruct (IH 2 (mkConsole (stdout out)
                        (stderr out ++ [path ++ lit ": file not found"])))
        as (out' & Hrun & Herr & found & Hfound & Hout).
      exists out'. rewrite Hrun. cbn [stdout stderr] in *.
      rewrite (filter_cons_True (λ p, fs !! p = None)) by done.
      rewrite (filter_cons_False (λ p, fs !! p ≠ None))
        by (simpl; intros H; by apply H).
      split_and!; [| | by exists found].
      * f_equal. by rewrite last_problem_cons.
      * rewrite Herr, fmap_cons. by rewrite <- app_assoc.
Qed.

(** X13. When no file raises, [main] returns the status of the last path
    that is missing (2) or has issues (1), and 0 when there is none: a later
    file with issues replaces the status of a missing one.  It prints one
    line to the error stream for each missing path, in their order, and to
    the output stream, for each file in their order, the header with its
    path and then the report of the issues that its analysis returns:
    two strings for each file and nothing else. *)
Theorem main_exit_code (args : arguments) :
  Forall (passable isalpha fs args) (paths args) →
  ∃ out,
    main isalpha fs args
    = Exits (last_problem (path_status isalpha fs args <$> paths args)) out
    ∧ (last_problem (path_status isalpha fs args <$> paths args) = 0
       ↔ Forall (λ p, path_status isalpha fs args p = 0) (paths args))
    ∧ last_problem (path_status isalpha fs args <$> paths args) ∈ [0; 1; 2]
    ∧ stderr out
      = (λ p, p ++ lit ": file not found")
        <$> filter (λ p, fs !! p = None) (paths args)
    ∧ (∃ found,
         Forall2 (λ p issues,
                    analyze_file isalpha fs p (negb (allow_tabs args))
                                 (indent_size args) = inr issues)
                 (filter (λ p, fs !! p ≠ None) (paths args)) found
         ∧ stdout out
           = zip (filter (λ p, fs !! p ≠ None) (paths args)) found
             ≫= λ '(p, issues),
                  [lit "== " ++ p ++ lit " ==";
                   format_issues issues (color args)])
    ∧ length (stdout out)
      = (2 * length (filter (λ p, fs !! p ≠ None) (paths args)))%nat.
Proof.
  intros Hall.
  destruct (main_loop_passable args (paths args) 0 (mkConsole [] []) Hall)
    as (out & Hrun & Herr & found & Hfound & Hout).
  exists out. unfold main, last_problem. rewrite Hrun.
  set (statuses := path_status isalpha fs args <$> paths args).
  assert (Forall (λ c, c ∈ [0; 1; 2]) statuses) as Hrange.
  { apply Forall_fmap, Forall_true. intros p. unfold path_status. simpl.
    repeat case_match; decide_by_computation. }
  split_and!; [done | | | done | by exists found |].
  - split.
    + intros Hzero.
      assert (Forall (λ c, c = 0) statuses) as Hall0;
        [| by apply Forall_fmap in Hall0].
      destruct (last (filter (λ c, c ≠ 0) statuses)) as [c|] eqn:Hlast.
      * simpl in Hzero. subst c. apply last_Some_elem_of in Hlast.
        apply list_elem_of_filter in Hlast as [Hne _]. done.
      * apply last_None in Hlast. apply Forall_forall. intros c Hc.
        destruct (decide (c = 0)) as [|Hne]; [done |].
        assert (c ∈ filter (λ c, c ≠ 0) statuses) as Hin
          by (by apply list_elem_of_filter).
        rewrite Hlast in Hin. by apply elem_of_nil in Hin.
    + intros Hzero.
      assert (Forall (λ c, c = 0) statuses) as Hall0
        by (by apply Forall_fmap).
      rewrite filter_none; [done |].
      eapply Forall_impl; [exact Hall0 |]. simpl. intros c -> Hne. done.
  - destruct (last (filter (λ c, c ≠ 0) statuses)) as [c|] eqn:Hlast;
      [| left].
    apply last_Some_elem_of in Hlast.
    apply list_elem_of_filter in Hlast as [_ Hin].
    by eapply Forall_forall in Hrange.
  - rewrite Hout. cbn [stdout app]. rewrite length_bind_pairs.
    + by rewrite (length_zip_with_same_l _ _ _ _ Hfound).
    + by intros [p issues].
Qed.

Lemma main_loop_app (args : arguments) (before rest : list pystr)
    (code : Z) (out : console) :
  main_loop isalpha fs args (before ++ rest) code out
  = match main_loop isalpha fs args before code out with
    | Exits code' out' => main_loop isalpha fs args rest code' out'
    | Aborts e out' => Aborts e out'
    end.
Proof.
  revert code out. induction before as [|p before IH]; intros code out; [done |].
  cbn [app main_loop]. case_bool_decide; [apply IH |].
  destruct (analyze_file _ _ _ _ _); [done | apply IH].
Qed.

Lemma main_loop_arguments (a1 a2 : arguments) (todo : list pystr)
    (code : Z) (out : console) :
  indent_size a1 = indent_size a2 → allow_tabs a1 = allow_tabs a2 →
  color a1 = color a2 →
  main_loop isalpha fs a1 todo code out = main_loop isalpha fs a2 todo code out.
Proof.
  intros Hi Ht Hc. revert code out.
  induction todo as [|p todo IH]; intros code out; [done |].
  cbn [main_loop]. rewrite Hi, Ht, Hc. case_bool_decide; [apply IH |].
  destruct (analyze_file _ _ _ _ _); [done | apply IH].
Qed.

(** X14. When reading or analysing a file raises, [main] ends there with
    that exception: it has printed what it prints for the paths before that
    file, nothing for the file itself, the later paths are not visited and
    no exit code is returned. *)
Theorem main_aborts_at_first_exception
    (before after : list pystr) (path : pystr) (e : io_exn)
    (isz : Z) (tabs col : bool) :
  Forall (passable isalpha fs (mkArguments before isz tabs col)) before →
  fs !! path ≠ None →
  analyze_file isalpha fs path (negb tabs) isz = inl e →
  ∃ code out,
    main isalpha fs (mkArguments before isz tabs col) = Exits code out
    ∧ main isalpha fs (mkArguments (before ++ path :: after) isz tabs col)
      = Aborts e out.
Proof.
  intros Hbefore Hexists Hraise.
  destruct (main_loop_passable _ before 0 (mkConsole [] []) Hbefore)
    as (out & Hrun & _).
  eexists _, out. unfold main. cbn [paths]. split; [exact Hrun |].
  rewrite main_loop_app.
  rewrite (main_loop_arguments _ (mkArguments before isz tabs col)) by done.
  rewrite Hrun. cbn [main_loop indent_size allow_tabs].
  rewrite bool_decide_eq_false_2 by done. by rewrite Hraise.
Qed.

End CommandLine.

(** ** When the analysis raises, and how much it reports *)

Section Limits.

Variable isalpha : char → bool.

(** X15. For an indent size that Python prints, one of at most 4300
    decimal digits, the analysis raises exactly when the indent size is zero
    and some line that is not blank is indented by spaces only; the
    exception is then [ZeroDivisionError], and in every other case a list of
    issues is returned.  (Beyond that limit the message of the width issue
    cannot be formatted, and [str_of_int] does not describe the code.) *)
Theorem analysis_raises_iff (source : pystr) (ps : bool) (isz : Z) (e : exn) :
  str_digits_ok isz →
  analyze_source isalpha source ps isz = Raises e
  ↔ e = ZeroDivisionError ∧ isz = 0
    ∧ Exists (λ l, lstrip [SPACE; TAB] l ≠ [] ∧ leading_run l ≠ []
                   ∧ Forall (λ c, c = SPACE) (leading_run l))
             (splitlines source).
Proof.
  intros _. unfold analyze_source. rewrite check_indentation_rules.
  set (lines := splitlines source).
  assert (Exists (λ it : Z * pystr,
                    isz = 0 ∧ lstrip [SPACE; TAB] it.2 ≠ []
                    ∧ leading_run it.2 ≠ [] ∧ TAB ∉ leading_run it.2)
                 (enumerate 1 lines)
          ↔ isz = 0
            ∧ Exists (λ l, lstrip [SPACE; TAB] l ≠ [] ∧ leading_run l ≠ []
                           ∧ Forall (λ c, c = SPACE) (leading_run l)) lines)
    as Hex.
  { rewrite !Exists_exists. split.
    - intros ([idx l] & Hin & Hz & Hblank & Hne & Htab). simpl in *.
      split; [done |]. exists l.
      apply elem_of_enumerate in Hin as (k & Hk & _).
      split; [by eapply list_elem_of_lookup_2 |]. split_and!; [done.. |].
      apply only_spaces; [apply leading_run_split | done].
    - intros (Hz & l & Hin & Hblank & Hne & Hsp).
      apply list_elem_of_lookup in Hin as [k Hk].
      exists (1 + Z.of_nat k, l). split; [apply elem_of_enumerate; eauto |].
      simpl. split_and!; [done.. |]. intros Htab.
      eapply Forall_forall in Hsp; [| exact Htab]. done. }
  case_decide as Hraise; simpl.
  - split; [intros [= <-]; split; [done | by apply Hex] | by intros [-> _]].
  - split; [done |]. intros (_ & Hz & Hlines). destruct Hraise.
    by apply Hex.
Qed.

Lemma block_item_count (stream : list (Z * pystr * pystr)) st :
  (length (foldl block_item st stream).1 + length (foldl block_item st stream).2
   ≤ length st.1 + length st.2
     + length (filter keyword ((λ it, it.2) <$> stream)))%nat.
Proof.
  revert st. induction stream as [|[[idx raw] t] stream IH]; intros st;
    [simpl; lia |].
  cbn [foldl block_item]. etrans; [apply IH |].
  rewrite fmap_cons, filter_cons. simpl.
  destruct st as [stack yielded]. unfold block_token.
  destruct (_BLOCK_PAIRS !! t) as [closer|] eqn:Hopen.
  - rewrite decide_True by (left; by rewrite Hopen).
    simpl. rewrite length_app. simpl. lia.
  - case_bool_decide as Hend.
    + rewrite decide_True by (by right).
      destruct (last stack) as [[expected n]|] eqn:Hlast.
      * case_bool_decide; simpl; rewrite ?length_app; simpl; [lia |].
        apply last_Some in Hlast as [below ->].
        rewrite removelast_last, length_app. simpl. lia.
      * simpl. rewrite length_app. simpl. lia.
    + case_decide; simpl; lia.
Qed.

(** Frames and issues come from lines with a keyword. *)
Lemma block_items_keyword_lines (lines : list pystr)
    (stream : list (Z * pystr * pystr)) (st : list frame * list Issue) :
  Forall (λ it, it ∈ token_stream isalpha lines) stream →
  Forall (λ f : frame, keyword_line isalpha lines f.2) st.1 →
  Forall (λ i, keyword_line isalpha lines (line i)) st.2 →
  Forall (λ f : frame, keyword_line isalpha lines f.2)
         (foldl block_item st stream).1
  ∧ Forall (λ i, keyword_line isalpha lines (line i))
           (foldl block_item st stream).2.
Proof.
  intros Hstream. revert st.
  induction Hstream as [|[[idx raw] t] stream Hit _ IH];
    intros [stack yielded] Hstack Hy; [done |].
  cbn [foldl block_item]. cbn [fst snd] in Hstack, Hy.
  apply token_stream_line in Hit as (Hidx & Hline & Htok).
  assert (keyword t → keyword_line isalpha lines idx) as Hkw.
  { intros Ht. split; [done |]. exists raw. split; [done |].
    apply Exists_exists. by exists t. }
  unfold block_token. destruct (_BLOCK_PAIRS !! t) as [closer|] eqn:Hopen.
  - apply IH; cbn [fst snd]; [| done].
    apply Forall_app. split; [done |]. constructor; [| done].
    apply Hkw. left. by rewrite Hopen.
  - case_bool_decide as Hend; [| by apply IH].
    specialize (Hkw (or_intror Hend)).
    destruct (last stack) as [[expected n]|] eqn:Hlast.
    + case_bool_decide.
      * apply IH; cbn [fst snd]; [done |].
        apply Forall_app. split; [done |]. by constructor.
      * apply IH; cbn [fst snd]; [| done].
        apply last_Some in Hlast as [below ->]. rewrite removelast_last.
        by apply Forall_app in Hstack as [? _].
    + apply IH; cbn [fst snd]; [done |].
      apply Forall_app. split; [done |]. by constructor.
Qed.

(** X16. The block-balance check never yields more issues than the lines
    have keywords, and every issue it yields is at a line that has a keyword
    among its tokens: a line without keywords gets no issue, whatever the
    other lines hold, and lines without any keyword get none at all. *)
Theorem block_issues_bounded_by_keywords (lines : list pystr) :
  (length (_check_block_balance isalpha lines)
   ≤ length (filter keyword (tokens_read isalpha lines)))%nat
  ∧ Forall (λ i, keyword_line isalpha lines (line i))
           (_check_block_balance isalpha lines)
  ∧ (∀ (k : nat) raw,
       lines !! k = Some raw →
       Forall (λ t, ¬ keyword t) (_tokenize isalpha (_strip_comments raw)) →
       Forall (λ i, line i ≠ Z.of_nat k + 1)
              (_check_block_balance isalpha lines))
  ∧ (Forall (λ t, ¬ keyword t) (tokens_read isalpha lines) →
     _check_block_balance isalpha lines = []).
Proof.
  assert (length (_check_block_balance isalpha lines)
          ≤ length (filter keyword (tokens_read isalpha lines)))%nat as Hle.
  { rewrite check_block_balance_scan, block_scan_stream, length_app, length_fmap.
    rewrite <- token_stream_tokens.
    pose proof (block_item_count (token_stream isalpha lines) ([], [])) as H.
    simpl in H. lia. }
  assert (Forall (λ i, keyword_line isalpha lines (line i))
                 (_check_block_balance isalpha lines)) as Hlines.
  { rewrite check_block_balance_scan, block_scan_stream.
    destruct (block_items_keyword_lines lines (token_stream isalpha lines)
                ([], [])) as [Hstack Hy]; [by apply Forall_forall | done.. |].
    apply Forall_app. split; [done |]. by apply Forall_fmap. }
  split_and!; [done | done | |].
  - intros k raw Hk Hwords. eapply Forall_impl; [exact Hlines |].
    intros i (_ & raw' & Hline & Hkw) Hi. rewrite Hi in Hline.
    replace (Z.to_nat (Z.of_nat k + 1 - 1)) with k in Hline by lia.
    rewrite Hk in Hline. injection Hline as <-.
    apply Exists_exists in Hkw as (t & Ht & Hkw).
    by eapply Forall_forall in Hwords.
  - intros Hwords. rewrite filter_none in Hle by done.
    destruct (_check_block_balance isalpha lines); [done | simpl in Hle; lia].
Qed.

End Limits.

(** * The further properties at concrete inputs *)

Lemma indentation_clean_witness :
  4 ≠ 0
  ∧ (_check_indentation [lit "    x"; lit "y"] true 4 = Returns []
     ↔ Forall (clean_indent true 4) [lit "    x"; lit "y"]).
Proof.
  assert (4 ≠ 0) as Hz by discriminate.
  split; [exact Hz |].
  exact (indentation_clean_iff [lit "    x"; lit "y"] true 4 Hz).
Defined.

Lemma tabs_only_witness :
  Forall (λ l, lstrip [SPACE; TAB] l ≠ [] ∧ leading_run l ≠ []
               ∧ Forall (λ c, c = TAB) (leading_run l))
         [TAB :: lit "x"; TAB :: TAB :: lit "y"]
  ∧ _check_indentation [TAB :: lit "x"; TAB :: TAB :: lit "y"] false 0
    = Returns [].
Proof.
  assert (Forall (λ l, lstrip [SPACE; TAB] l ≠ [] ∧ leading_run l ≠ []
                       ∧ Forall (λ c, c = TAB) (leading_run l))
                 [TAB :: lit "x"; TAB :: TAB :: lit "y"]) as Htabs
    by decide_by_computation.
  split; [exact Htabs |].
  exact (proj1 (tabs_only_indentation _ 0 Htabs)).
Defined.

Lemma lone_closing_keyword_witness :
  token_stream isalpha_ascii [lit "x = 1"; lit "  end"]
  = [(1, lit "x = 1", lit "x")] ++ (2, lit "  end", lit "end") :: []
  ∧ lit "end" ∈ _BLOCK_ENDINGS
  ∧ Forall (λ it : Z * pystr * pystr, ¬ keyword it.2) [(1, lit "x = 1", lit "x")]
  ∧ ∃ k, first_occurrence (lit "  end") (lit "end") k
         ∧ _check_block_balance isalpha_ascii [lit "x = 1"; lit "  end"]
           = [mkIssue 2 (Z.of_nat k + 1)
                (lit "Unexpected '" ++ lit "end" ++ lit "'") SYNTAX].
Proof.
  assert (token_stream isalpha_ascii [lit "x = 1"; lit "  end"]
          = [(1, lit "x = 1", lit "x")] ++ (2, lit "  end", lit "end") :: [])
    as Hstream by (vm_compute; reflexivity).
  assert (lit "end" ∈ _BLOCK_ENDINGS) as Hend by decide_by_computation.
  assert (Forall (λ it : Z * pystr * pystr, ¬ keyword it.2)
                 [(1, lit "x = 1", lit "x")]) as Hbefore
    by decide_by_computation.
  split; [exact Hstream |]. split; [exact Hend |]. split; [exact Hbefore |].
  destruct (lone_closing_keyword isalpha_ascii _ _ _ _ _ _ Hstream Hend Hbefore
              (List.Forall_nil _)) as (k & _ & Hfirst & Hcheck).
  exists k. split; [exact Hfirst | exact Hcheck].
Defined.

Lemma issues_point_into_source_witness :
  analyze_source isalpha_ascii (lit "print('hello world')") true 4
  = Returns [mkIssue 1 21 (lit "Missing final newline") FORMAT]
  ∧ Forall (λ i, well_placed (splitlines (lit "print('hello world')")) i
                 ∧ code i ∈ [FORMAT; INDENT; SYNTAX])
           [mkIssue 1 21 (lit "Missing final newline") FORMAT].
Proof.
  assert (analyze_source isalpha_ascii (lit "print('hello world')") true 4
          = Returns [mkIssue 1 21 (lit "Missing final newline") FORMAT])
    as Hrun by (vm_compute; reflexivity).
  split; [exact Hrun |].
  exact (issues_point_into_source isalpha_ascii _ _ _ _ Hrun).
Defined.

Lemma final_newline_mends_witness :
  is_linebreak 120%N = false
  ∧ splitlines ((lit "end" ++ [120%N]) ++ [LF]) = splitlines (lit "end" ++ [120%N]).
Proof.
  split; [reflexivity |].
  exact (proj1 (final_newline_mends isalpha_ascii (lit "end") 120%N true 4
                  eq_refl)).
Defined.

Lemma report_witness :
  analyze_source isalpha_ascii (lit "end  ") true 4
  = Returns [mkIssue 1 6 (lit "Missing final newline") FORMAT;
             mkIssue 1 5 (lit "Trailing whitespace") FORMAT;
             mkIssue 1 1 (lit "Unexpected 'end'") SYNTAX]
  ∧ length (splitlines
              (format_issues
                 [mkIssue 1 6 (lit "Missing final newline") FORMAT;
                  mkIssue 1 5 (lit "Trailing whitespace") FORMAT;
                  mkIssue 1 1 (lit "Unexpected 'end'") SYNTAX] true))
    = 3%nat.
Proof.
  assert (analyze_source isalpha_ascii (lit "end  ") true 4
          = Returns [mkIssue 1 6 (lit "Missing final newline") FORMAT;
                     mkIssue 1 5 (lit "Trailing whitespace") FORMAT;
                     mkIssue 1 1 (lit "Unexpected 'end'") SYNTAX])
    as Hrun by (vm_compute; reflexivity).
  split; [exact Hrun |].
  apply (report_has_one_line_per_issue isalpha_ascii _ _ _ _ true Hrun).
  discriminate.
Defined.

Lemma Issue_str_witness :
  Issue_str (mkIssue 3 1 (lit "Unexpected 'end'") SYNTAX)
  = Issue_str (mkIssue (1 + 2) 1 (lit "Unexpected '" ++ lit "end'") SYNTAX)
  ∧ mkIssue 3 1 (lit "Unexpected 'end'") SYNTAX
    = mkIssue (1 + 2) 1 (lit "Unexpected '" ++ lit "end'") SYNTAX.
Proof.
  assert (Issue_str (mkIssue 3 1 (lit "Unexpected 'end'") SYNTAX)
          = Issue_str (mkIssue (1 + 2) 1 (lit "Unexpected '" ++ lit "end'")
                         SYNTAX)) as Hsame by (vm_compute; reflexivity).
  split; [exact Hsame |].
  exact (Issue_str_inj _ _ Hsame).
Defined.

Lemma main_exit_code_witness :
  Forall (passable isalpha_ascii {[ lit "a.lua" := Text (lit "end") ]}
            (mkArguments [lit "missing.lua"; lit "a.lua"] 4 false false))
         [lit "missing.lua"; lit "a.lua"]
  ∧ ∃ out,
      main isalpha_ascii {[ lit "a.lua" := Text (lit "end") ]}
           (mkArguments [lit "missing.lua"; lit "a.lua"] 4 false false)
      = Exits 1 out.
Proof.
  assert (Forall (passable isalpha_ascii {[ lit "a.lua" := Text (lit "end") ]}
                    (mkArguments [lit "missing.lua"; lit "a.lua"] 4 false false))
                 [lit "missing.lua"; lit "a.lua"]) as Hpass.
  { constructor; [left; vm_compute; reflexivity |].
    constructor; [| constructor].
    right. eexists. vm_compute. reflexivity. }
  split; [exact Hpass |].
  destruct (main_exit_code isalpha_ascii _ _ Hpass) as (out & Hrun & _).
  exists out. rewrite Hrun. f_equal.
Defined.

Lemma main_aborts_witness :
  Forall (passable isalpha_ascii {[ lit "dir" := Unreadable ]}
            (mkArguments [] 4 false false)) []
  ∧ ({[ lit "dir" := Unreadable ]} : gmap pystr file_entry) !! lit "dir" ≠ None
  ∧ analyze_file isalpha_ascii {[ lit "dir" := Unreadable ]} (lit "dir")
                 (negb false) 4 = inl ReadError
  ∧ ∃ code out,
      main isalpha_ascii {[ lit "dir" := Unreadable ]}
           (mkArguments [] 4 false false) = Exits code out
      ∧ main isalpha_ascii {[ lit "dir" := Unreadable ]}
             (mkArguments ([] ++ lit "dir" :: [lit "later.lua"]) 4 false false)
        = Aborts ReadError out.
Proof.
  assert (({[ lit "dir" := Unreadable ]} : gmap pystr file_entry) !! lit "dir"
          ≠ None) as Hexists by (vm_compute; discriminate).
  assert (analyze_file isalpha_ascii {[ lit "dir" := Unreadable ]} (lit "dir")
                       (negb false) 4 = inl ReadError) as Hraise
    by (vm_compute; reflexivity).
  split; [constructor |]. split; [exact Hexists |]. split; [exact Hraise |].
  exact (main_aborts_at_first_exception isalpha_ascii _ [] [lit "later.lua"]
           (lit "dir") ReadError 4 false false (List.Forall_nil _) Hexists Hraise).
Defined.

Lemma analysis_raises_witness :
  str_digits_ok 0
  ∧ (analyze_source isalpha_ascii (lit "  x") true 0 = Raises ZeroDivisionError
     ↔ ZeroDivisionError = ZeroDivisionError ∧ 0 = 0
       ∧ Exists (λ l, lstrip [SPACE; TAB] l ≠ [] ∧ leading_run l ≠ []
                      ∧ Forall (λ c, c = SPACE) (leading_run l))
                (splitlines (lit "  x"))).
Proof.
  assert (str_digits_ok 0) as Hdigits by (vm_compute; reflexivity).
  split; [exact Hdigits |].
  exact (analysis_raises_iff isalpha_ascii (lit "  x") true 0
           ZeroDivisionError Hdigits).
Defined.
